(** * sherlog: file sink, count-based rolling sink and fan-out composite

    A shallow embedding of [logger.go], [size_based_rolling_file_logger.go]
    and the [PolyLogger] source, with the properties their specification
    states about them. *)

From Stdlib Require Import ZArith Lia List String Ascii.
From Stdlib.Strings Require Import Byte.
From stdpp Require Import base list.
Import ListNotations.

Local Open Scope list_scope.

(** [[]byte(s)] *)
Definition bytes (s : string) : list byte := list_byte_of_string s.

(** The byte of ["\n"]. *)
Definition nl : list byte := [x0a].

(* ===================================================================== *)
(** * logger.go *)
(* ===================================================================== *)

Module FileSink.

Section WithEnv.

(** Non-nil values of Go's [error] as returned by the calls below. *)
Variable Err : Type.
(** [AsError], of the sherlog package: wraps a message or an error. *)
Variable AsError : string + Err -> Err.
(** [time.Now().In(Location).Format(timeFmt)] at the n-th reading of the clock. *)
Variable timestamp : nat -> string.
(** [json.Marshal(map[string]interface{}{"Time": t, "Message": m})]. *)
Variable jsonMarshal : string -> string -> list byte + Err.

(** What the operating system answers to the next call on the handle:
    success, or a failure after [n] bytes went through. *)
Inductive outcome :=
| IoOk
| IoFail (n : nat) (e : Err).

(** An [os.File] opened with O_APPEND|O_CREATE|O_WRONLY: the bytes of the file
    and the answers the system will give to the coming calls (none left:
    the calls succeed). *)
Record File := mkFile {
  content : list byte;
  pending : list outcome
}.

(** What a sink did, in order: ghost state for the statements. *)
Inductive event :=
| EvLock
| EvUnlock
| EvWrite (b : list byte) (n : nat) (r : option Err)
| EvSync (r : option Err).

(** [FileLogger], with [mutex] = the lock is held, and two ghost fields:
    the journal of what the sink did and the number of clock readings. *)
Record FileLogger := mkFileLogger {
  logFilePath : string;
  mutex : bool;
  file : File;
  journal : list event;
  clock : nat
}.

(** [logFunction]: code that receives the file as an [io.Writer], so all
    it can do with it is write, look at the answer, and go on. Only
    methods that return are described: one that panics, blocks or calls
    back into the sink that runs it has no [logFunction], and a statement
    about a call says nothing of it. *)
Inductive logFunction :=
| LfReturn (r : option Err)
| LfWrite (b : list byte) (k : nat -> option Err -> logFunction).

(** An [error] value with the capabilities it may have on top of [Error()]:
    [Log] (Loggable), [LogNoStack], [LogAsJson]. *)
Record errval := mkErrval {
  Error : string;
  LogM : option logFunction;
  LogNoStackM : option logFunction;
  LogAsJsonM : option logFunction
}.

(** [interface{}]: nil, an error, or any other value (kept as what
    [fmt.Sprintf("%v", v)] prints). *)
Inductive value :=
| VNil
| VErr (e : errval)
| VOther (repr : string).

(** [errToLog.(LoggableWithNoStackOption)]: the interface embeds Loggable. *)
Definition asNoStack (e : errval) : option logFunction :=
  match LogM e, LogNoStackM e with
  | Some _, Some f => Some f
  | _, _ => None
  end.

(** Calls on a sink: [None] when the call blocks for ever on a held mutex. *)
Definition M (A : Type) : Type := FileLogger -> option (A * FileLogger).

Definition ret {A} (a : A) : M A := fun l => Some (a, l).

Definition bind {A B} (m : M A) (k : A -> M B) : M B :=
  fun l => match m l with
           | Some (a, l') => k a l'
           | None => None
           end.

Notation "x <- m ;; k" := (bind m (fun x => k))
  (at level 100, m at level 99, right associativity).
Notation "m ;;; k" := (bind m (fun _ => k))
  (at level 100, right associativity).

Definition note (ev : event) (l : FileLogger) : FileLogger :=
  mkFileLogger (logFilePath l) (mutex l) (file l) (journal l ++ [ev]) (clock l).

Definition setFile (f : File) (l : FileLogger) : FileLogger :=
  mkFileLogger (logFilePath l) (mutex l) f (journal l) (clock l).

Definition setMutex (b : bool) (l : FileLogger) : FileLogger :=
  mkFileLogger (logFilePath l) b (file l) (journal l) (clock l).

(** [l.mutex.Lock()] *)
Definition Lock : M unit :=
  fun l => if mutex l then None else Some (tt, note EvLock (setMutex true l)).

(** [l.mutex.Unlock()] *)
Definition Unlock : M unit :=
  fun l => Some (tt, note EvUnlock (setMutex false l)).

(** [os.File.Write] *)
Definition osWrite (b : list byte) (f : File) : File * (nat * option Err) :=
  match pending f with
  | IoFail n e :: rest =>
      (mkFile (content f ++ firstn n b) rest, (Nat.min n (length b), Some e))
  | IoOk :: rest => (mkFile (content f ++ b) rest, (length b, None))
  | [] => (mkFile (content f ++ b) [], (length b, None))
  end.

(** [os.File.Sync] *)
Definition osSync (f : File) : File * option Err :=
  match pending f with
  | IoFail _ e :: rest => (mkFile (content f) rest, Some e)
  | IoOk :: rest => (mkFile (content f) rest, None)
  | [] => (f, None)
  end.

(** [l.file.Write(b)] *)
Definition fileWrite (b : list byte) : M (nat * option Err) :=
  fun l => let '(f, (n, r)) := osWrite b (file l) in
           Some ((n, r), note (EvWrite b n r) (setFile f l)).

(** [l.file.Sync()] *)
Definition fileSync : M (option Err) :=
  fun l => let '(f, r) := osSync (file l) in
           Some (r, note (EvSync r) (setFile f l)).

(** [time.Now().In(Location).Format(timeFmt)] *)
Definition now : M string :=
  fun l => Some (timestamp (clock l),
                 mkFileLogger (logFilePath l) (mutex l) (file l) (journal l) (S (clock l))).

(** [logFunc(l.file)] *)
Fixpoint callLogFunc (g : logFunction) (l : FileLogger) : option (option Err * FileLogger) :=
  match g with
  | LfReturn r => Some (r, l)
  | LfWrite b k =>
      match fileWrite b l with
      | Some ((n, r), l') => callLogFunc (k n r) l'
      | None => None
      end
  end.

(** [FileLogger.log] *)
Definition log (logFunc : logFunction) : M (option Err) :=
  err <- callLogFunc logFunc ;;
  match err with
  | Some e => ret (Some e)
  | None =>
      err <- fileSync ;;
      match err with
      | Some e => ret (Some e)
      | None => ret None
      end
  end.

(** [FileLogger.logNonSherlogError] *)
Definition logNonSherlogError (errToLog : errval) : M (option Err) :=
  t <- now ;;
  w <- fileWrite (bytes t) ;;
  match snd w with
  | Some e => ret (Some e)
  | None =>
      w <- fileWrite (bytes " - ") ;;
      match snd w with
      | Some e => ret (Some e)
      | None =>
          w <- fileWrite (bytes (Error errToLog)) ;;
          ret (snd w)
      end
  end.

(** The separator written between two values of one [Log] call. *)
Definition causedBy : list byte := nl ++ bytes "Caused by:" ++ nl.

(** The [for i, errToLog := range errorsToLog] loop of [FileLogger.Log],
    on what is left of the slice; [i < len(errorsToLog)-1] is "some value
    is left after this one". *)
Fixpoint logEach (errorsToLog : list value) : M (option Err) :=
  match errorsToLog with
  | [] => ret None
  | errToLog :: rest =>
      let next : M (option Err) :=
        match rest with
        | [] => logEach rest
        | _ :: _ => fileWrite causedBy ;;; logEach rest
        end in
      match errToLog with
      | VNil => ret (Some (AsError (inl "tried to log nil error"%string)))
      | VErr impl =>
          match LogM impl with
          | Some f =>
              err <- log f ;;
              match err with
              | Some e => ret (Some (AsError (inr e)))
              | None => next
              end
          | None =>
              err <- logNonSherlogError impl ;;
              match err with
              | Some e => ret (Some (AsError (inr e)))
              | None => next
              end
          end
      | VOther repr => fileWrite (bytes repr) ;;; next
      end
  end.

(** [FileLogger.Log]; the deferred function runs after the body, whatever
    the body returns. *)
Definition Log (errorsToLog : list value) : M (option Err) :=
  if length errorsToLog <? 1 then
    ret (Some (AsError (inl "no parameters provided to Log"%string)))
  else
    Lock ;;;
    r <- logEach errorsToLog ;;
    fileWrite (nl ++ nl) ;;;
    Unlock ;;;
    ret r.

(** [FileLogger.LogNoStack] *)
Definition LogNoStack (errToLog : option errval) : M (option Err) :=
  match errToLog with
  | None => ret (Some (AsError (inl "tried to log nil error"%string)))
  | Some e =>
      Lock ;;;
      r <- match asNoStack e with
           | Some f => log f
           | None => logNonSherlogError e
           end ;;
      fileWrite (nl ++ nl) ;;;
      Unlock ;;;
      ret r
  end.

(** The body of [FileLogger.LogJson] after the lock is taken. *)
Definition logJsonBody (e : errval) : M (option Err) :=
  match LogAsJsonM e with
  | Some f => log f
  | None =>
      t <- now ;;
      match jsonMarshal t (Error e) with
      | inr err => ret (Some err)
      | inl jsonBytes =>
          w <- fileWrite jsonBytes ;;
          ret (snd w)
      end
  end.

(** [FileLogger.LogJson] *)
Definition LogJson (errToLog : option errval) : M (option Err) :=
  match errToLog with
  | None => ret (Some (AsError (inl "tried to log nil error"%string)))
  | Some e =>
      Lock ;;;
      r <- logJsonBody e ;;
      fileWrite nl ;;;
      Unlock ;;;
      ret r
  end.

(** [NewFileLogger], over what [openFile] finds at the path. *)
Definition NewFileLogger (openFile : string -> File + Err) (logFilePath : string)
  : FileLogger + Err :=
  match openFile logFilePath with
  | inr err => inr (AsError (inr err))
  | inl f => inl (mkFileLogger logFilePath false f [] 0)
  end.

(** ** What a call leaves in the file when the system refuses nothing *)

(** The system answers every coming call on the handle with success. *)
Definition ready (f : File) : Prop := Forall (fun o => o = IoOk) (pending f).

(** The next call on the handle succeeds. *)
Definition nextOk (p : list outcome) : Prop :=
  match p with
  | IoFail _ _ :: _ => False
  | _ => True
  end.

(** The bytes a [logFunction] writes when each of its writes succeeds. *)
Fixpoint written (g : logFunction) : list byte :=
  match g with
  | LfReturn _ => []
  | LfWrite b k => b ++ written (k (length b) None)
  end.

(** What a [logFunction] returns when each of its writes succeeds. *)
Fixpoint answer (g : logFunction) : option Err :=
  match g with
  | LfReturn r => r
  | LfWrite b k => answer (k (length b) None)
  end.

(** The bytes of one value of a [Log] call, [clk] clock readings in:
    a Loggable writes itself, another error is ["<time> - <message>"],
    any other value is its default formatting. *)
Definition valueBytes (clk : nat) (v : value) : list byte :=
  match v with
  | VNil => []
  | VErr e =>
      match LogM e with
      | Some f => written f
      | None => bytes (timestamp clk) ++ bytes " - " ++ bytes (Error e)
      end
  | VOther repr => bytes repr
  end.

(** Clock readings one value takes. *)
Definition ticks (v : value) : nat :=
  match v with
  | VErr e => match LogM e with Some _ => 0 | None => 1 end
  | _ => 0
  end.

(** The bytes of the values of one [Log] call, joined by [causedBy]. *)
Fixpoint rendered (clk : nat) (vs : list value) : list byte :=
  match vs with
  | [] => []
  | v :: rest =>
      valueBytes clk v
      ++ match rest with [] => [] | _ :: _ => causedBy end
      ++ rendered (clk + ticks v) rest
  end.

(** [l'] is [l] after [out] was appended with no refusal. *)
Definition appended (l l' : FileLogger) (out : list byte) : Prop :=
  content (file l') = content (file l) ++ out
  /\ ready (file l')
  /\ mutex l' = mutex l
  /\ clock l' = clock l.

Lemma appended_refl l : ready (file l) -> appended l l [].
Proof. intros H. unfold appended. rewrite app_nil_r. auto. Qed.

Lemma appended_trans l1 l2 l3 a b :
  appended l1 l2 a -> appended l2 l3 b -> appended l1 l3 (a ++ b).
Proof.
  unfold appended. intros (Hc1 & _ & Hm1 & Hk1) (Hc2 & Hr & Hm2 & Hk2).
  rewrite Hc2, Hc1, Hm2, Hm1, Hk2, Hk1, app_assoc. auto.
Qed.

Lemma osWrite_ready b f :
  ready f ->
  exists p, osWrite b f = (mkFile (content f ++ b) p, (length b, None))
            /\ Forall (fun o => o = IoOk) p.
Proof.
  unfold ready, osWrite. destruct (pending f) as [|o rest]; intros H.
  - exists []. auto.
  - inversion H as [|? ? Ho Hrest]; subst. exists rest. auto.
Qed.

Lemma fileWrite_ready b l :
  ready (file l) ->
  exists l', fileWrite b l = Some ((length b, None), l') /\ appended l l' b.
Proof.
  intros H. destruct (osWrite_ready b (file l) H) as (p & Hw & Hp).
  unfold fileWrite. rewrite Hw. eexists. split; [reflexivity|].
  unfold appended, ready. simpl. auto.
Qed.

Lemma fileSync_ready l :
  ready (file l) ->
  exists l', fileSync l = Some (None, l') /\ appended l l' [].
Proof.
  unfold fileSync, osSync, ready. intros H.
  destruct (pending (file l)) as [|o rest] eqn:Hp.
  - eexists. split; [reflexivity|]. unfold appended, ready. simpl.
    rewrite app_nil_r, Hp. auto.
  - inversion H as [|? ? Ho Hrest]; subst. eexists. split; [reflexivity|].
    unfold appended, ready. simpl. rewrite app_nil_r. auto.
Qed.

Lemma callLogFunc_ready g : forall l,
  ready (file l) ->
  exists l', callLogFunc g l = Some (answer g, l') /\ appended l l' (written g).
Proof.
  induction g as [r|b k IH]; intros l H; simpl.
  - exists l. split; [reflexivity|]. now apply appended_refl.
  - destruct (fileWrite_ready b l H) as (l1 & Hw & Ha). rewrite Hw.
    destruct (IH (length b) None l1) as (l2 & Hc & Ha2); [apply Ha|].
    exists l2. split; [exact Hc|]. eapply appended_trans; eauto.
Qed.

Lemma log_ready g l :
  ready (file l) ->
  exists l', log g l = Some (answer g, l') /\ appended l l' (written g).
Proof.
  intros H. destruct (callLogFunc_ready g l H) as (l1 & Hc & Ha).
  unfold log, bind. rewrite Hc. destruct (answer g) as [e|].
  - exists l1. auto.
  - destruct (fileSync_ready l1) as (l2 & Hs & Ha2); [apply Ha|].
    rewrite Hs. exists l2. split; [reflexivity|].
    rewrite <- (app_nil_r (written g)). eapply appended_trans; eauto.
Qed.

Lemma logNonSherlogError_ready e l :
  ready (file l) ->
  exists l', logNonSherlogError e l = Some (None, l')
    /\ content (file l')
       = content (file l) ++ bytes (timestamp (clock l)) ++ bytes " - " ++ bytes (Error e)
    /\ ready (file l') /\ mutex l' = mutex l /\ clock l' = S (clock l).
Proof.
  intros H. unfold logNonSherlogError, bind, now.
  set (l0 := mkFileLogger _ _ _ _ _).
  destruct (fileWrite_ready (bytes (timestamp (clock l))) l0 H) as (l1 & H1 & A1).
  rewrite H1. cbn [snd]. cbv beta iota.
  destruct (fileWrite_ready (bytes " - ") l1) as (l2 & H2 & A2); [apply A1|].
  rewrite H2. cbn [snd]. cbv beta iota.
  destruct (fileWrite_ready (bytes (Error e)) l2) as (l3 & H3 & A3); [apply A2|].
  rewrite H3. cbn [snd]. eexists. split; [reflexivity|].
  destruct A1 as (C1 & _ & M1 & K1), A2 as (C2 & _ & M2 & K2), A3 as (C3 & R3 & M3 & K3).
  rewrite C3, C2, C1, M3, M2, M1, K3, K2, K1. subst l0. simpl.
  rewrite <- !app_assoc. auto.
Qed.

(** The loop of [Log], when it ends with no error and nothing was
    refused, appended the rendering of its values. *)
Lemma logEach_ready vs : forall l l',
  ready (file l) ->
  logEach vs l = Some (None, l') ->
  content (file l') = content (file l) ++ rendered (clock l) vs
  /\ ready (file l') /\ mutex l' = mutex l.
Proof.
  induction vs as [|v rest IH]; intros l l' Hr Hrun.
  - simpl in Hrun. injection Hrun as <-. simpl. rewrite app_nil_r. auto.
  - assert (Hnext : forall l1,
               ready (file l1) ->
               match rest with
               | [] => logEach rest
               | _ :: _ => bind (fileWrite causedBy) (fun _ => logEach rest)
               end l1 = Some (None, l') ->
               content (file l')
               = content (file l1)
                 ++ match rest with [] => [] | _ :: _ => causedBy end
                 ++ rendered (clock l1) rest
               /\ ready (file l') /\ mutex l' = mutex l1).
    { intros l1 Hr1 Hn. destruct rest as [|v' rest'].
      - apply IH in Hn; auto.
      - unfold bind in Hn.
        destruct (fileWrite_ready causedBy l1 Hr1) as (l2 & Hw & C2 & R2 & M2 & K2).
        rewrite Hw in Hn. apply IH in Hn; auto.
        destruct Hn as (C & R & Mx). rewrite C, C2, K2, Mx, M2, <- app_assoc. auto. }
    simpl in Hrun. simpl rendered. destruct v as [|e|repr].
    + discriminate Hrun.
    + unfold valueBytes, ticks. destruct (LogM e) as [f|].
      * unfold bind at 1 in Hrun.
        destruct (log_ready f l Hr) as (l1 & Hl & C1 & R1 & M1 & K1).
        rewrite Hl in Hrun. destruct (answer f) as [err|]; [discriminate Hrun|].
        apply Hnext in Hrun; auto. destruct Hrun as (C & R & Mx).
        rewrite C, C1, K1, Mx, M1, Nat.add_0_r, <- !app_assoc. auto.
      * unfold bind at 1 in Hrun.
        destruct (logNonSherlogError_ready e l Hr) as (l1 & Hl & C1 & R1 & M1 & K1).
        rewrite Hl in Hrun. apply Hnext in Hrun; auto. destruct Hrun as (C & R & Mx).
        rewrite C, C1, K1, Mx, M1, Nat.add_1_r, <- !app_assoc. auto.
    + unfold bind at 1 in Hrun.
      destruct (fileWrite_ready (bytes repr) l Hr) as (l1 & Hw & C1 & R1 & M1 & K1).
      rewrite Hw in Hrun. apply Hnext in Hrun; auto. destruct Hrun as (C & R & Mx).
      unfold valueBytes, ticks.
      rewrite C, C1, K1, Mx, M1, Nat.add_0_r, <- !app_assoc. auto.
Qed.

(** A value [Log] takes without an error, when nothing is refused. *)
Definition loggable (v : value) : Prop :=
  match v with
  | VNil => False
  | VErr e => match LogM e with Some f => answer f = None | None => True end
  | VOther _ => True
  end.

Lemma logEach_succeeds vs : forall l,
  ready (file l) -> Forall loggable vs ->
  exists l', logEach vs l = Some (None, l') /\ ready (file l').
Proof.
  induction vs as [|v rest IH]; intros l Hr Hvs.
  - exists l. split; [reflexivity|exact Hr].
  - inversion Hvs as [|? ? Hv Hrest]; subst.
    assert (Hnext : forall l1,
               ready (file l1) ->
               exists l', match rest with
                          | [] => logEach rest
                          | _ :: _ => bind (fileWrite causedBy) (fun _ => logEach rest)
                          end l1 = Some (None, l') /\ ready (file l')).
    { intros l1 Hr1. destruct rest as [|v' rest'].
      - apply IH; auto.
      - unfold bind. destruct (fileWrite_ready causedBy l1 Hr1) as (l2 & Hw & A2).
        rewrite Hw. apply IH; [apply A2|exact Hrest]. }
    simpl. destruct v as [|e|repr]; simpl in Hv.
    + contradiction.
    + destruct (LogM e) as [f|].
      * unfold bind at 1. destruct (log_ready f l Hr) as (l1 & Hl & A1).
        rewrite Hl, Hv. apply Hnext, A1.
      * unfold bind at 1.
        destruct (logNonSherlogError_ready e l Hr) as (l1 & Hl & _ & R1 & _).
        rewrite Hl. apply Hnext, R1.
    + unfold bind at 1. destruct (fileWrite_ready (bytes repr) l Hr) as (l1 & Hw & A1).
      rewrite Hw. apply Hnext, A1.
Qed.

(** [Log] does return, with no error, on a free sink when nothing is
    refused, for at least one value, none of them nil or a Loggable that
    fails by itself. *)
Lemma Log_succeeds vs l :
  vs <> [] -> mutex l = false -> ready (file l) -> Forall loggable vs ->
  exists l', Log vs l = Some (None, l').
Proof.
  intros Hne Hm Hr Hvs. unfold Log. destruct vs as [|v rest]; [contradiction|].
  cbn [length Nat.ltb Nat.leb]. unfold bind at 1. unfold Lock. rewrite Hm.
  unfold bind at 1.
  destruct (logEach_succeeds (v :: rest) (note EvLock (setMutex true l)) Hr Hvs)
    as (l1 & He & R1).
  rewrite He. unfold bind at 1.
  destruct (fileWrite_ready (nl ++ nl) l1 R1) as (l2 & Hw & _). rewrite Hw.
  unfold bind, Unlock, ret. eauto.
Qed.

(** ** Nil values *)

(** A sink on a file holding [c], as [NewFileLogger] returns it. *)
Definition opened (path : string) (c : list byte) : FileLogger :=
  mkFileLogger path false (mkFile c []) [] 0.

Lemma LogNoStack_nil l :
  LogNoStack None l = Some (Some (AsError (inl "tried to log nil error"%string)), l).
Proof. reflexivity. Qed.

Lemma LogJson_nil l :
  LogJson None l = Some (Some (AsError (inl "tried to log nil error"%string)), l).
Proof. reflexivity. Qed.

Lemma Log_no_values l :
  Log [] l = Some (Some (AsError (inl "no parameters provided to Log"%string)), l).
Proof. reflexivity. Qed.

(** C4, at [Log(nil)] and at [Log(err, nil)]: the call returns the
    nil-value error, and yet the file has grown: by the two newlines of
    the deferred write, and before them by the values that precede the nil
    one and their separator. *)
Theorem Log_nil_value_changes_file (path : string) (c : list byte) (msg : string) :
  (exists l',
      Log [VNil] (opened path c)
      = Some (Some (AsError (inl "tried to log nil error"%string)), l')
      /\ content (file l') = c ++ nl ++ nl
      /\ content (file l') <> content (file (opened path c)))
  /\ (exists l',
      Log [VErr (mkErrval msg None None None); VNil] (opened path c)
      = Some (Some (AsError (inl "tried to log nil error"%string)), l')
      /\ content (file l')
         = c ++ bytes (timestamp 0) ++ bytes " - " ++ bytes msg ++ causedBy ++ nl ++ nl).
Proof.
  split.
  - eexists. split; [cbv - [app bytes nl causedBy]; reflexivity|]. cbn [file content].
    split; [reflexivity|].
    intros H. apply (f_equal (@length byte)) in H.
    rewrite length_app in H. simpl in H. lia.
  - eexists. split; [cbv - [app bytes nl causedBy]; reflexivity|]. cbn [file content].
    rewrite <- !app_assoc. reflexivity.
Qed.

(** ** Sync *)

(** [FileLogger.log], when it returns no error, has synced last. *)
Lemma log_syncs_last g l l' :
  log g l = Some (None, l') -> exists j, journal l' = j ++ [EvSync None].
Proof.
  unfold log, bind. destruct (callLogFunc g l) as [[[e|] l1]|]; try discriminate.
  unfold fileSync. destruct (osSync (file l1)) as [f [e|]]; simpl; try discriminate.
  intros H. injection H as <-. simpl. eauto.
Qed.

(** C5, at [Log(err)] for an error that is not Loggable: the call
    succeeds and the sink did four writes between taking and releasing
    the lock, and no sync. *)
Theorem Log_plain_error_not_synced (path : string) (c : list byte) (msg : string) :
  exists l',
    Log [VErr (mkErrval msg None None None)] (opened path c) = Some (None, l')
    /\ journal l'
       = [EvLock;
          EvWrite (bytes (timestamp 0)) (length (bytes (timestamp 0))) None;
          EvWrite (bytes " - ") 3 None;
          EvWrite (bytes msg) (length (bytes msg)) None;
          EvWrite (nl ++ nl) 2 None;
          EvUnlock]
    /\ forall r, ~ In (EvSync r) (journal l').
Proof.
  eexists. split; [reflexivity|]. simpl. split; [reflexivity|].
  intros r H. repeat (destruct H as [H|H]; [discriminate H|]). exact H.
Qed.

(** ** The output of [Log] *)

(** C9 (as amended): when nothing is refused by the system and [Log]
    returns no error, the file has grown by the values in order, a
    Loggable as it writes itself, any other error as
    ["<time> - <message>"], a value that is no error as its default
    formatting, two consecutive values joined by the "Caused by:" line,
    and two newlines at the end; the lock is free again. *)
Theorem Log_renders (vs : list value) (l l' : FileLogger) :
  ready (file l) ->
  Log vs l = Some (None, l') ->
  content (file l') = content (file l) ++ rendered (clock l) vs ++ nl ++ nl
  /\ mutex l' = false.
Proof.
  intros Hr. unfold Log. destruct (length vs <? 1); [discriminate|].
  unfold bind at 1. unfold Lock. destruct (mutex l) eqn:Hm; [discriminate|].
  unfold bind at 1.
  set (l0 := note EvLock (setMutex true l)).
  destruct (logEach vs l0) as [[r l1]|] eqn:He; [|discriminate].
  unfold bind at 1.
  destruct (fileWrite (nl ++ nl) l1) as [[w l2]|] eqn:Hw; [|discriminate].
  unfold bind, Unlock, ret. intros H. injection H as -> <-.
  apply logEach_ready in He; [|exact Hr]. destruct He as (C1 & R1 & _).
  destruct (fileWrite_ready (nl ++ nl) l1 R1) as (l2' & Hw' & C2 & _).
  rewrite Hw in Hw'. injection Hw' as _ <-.
  simpl. rewrite C2, C1. subst l0. simpl. rewrite <- !app_assoc. auto.
Qed.

(** ** The fallback of [LogJson] *)


(** ** Calls under any answers of the system *)

(** One call on the sink. *)
Inductive request :=
| ReqLog (errorsToLog : list value)
| ReqLogNoStack (errToLog : option errval)
| ReqLogJson (errToLog : option errval).

Definition serve (q : request) : M (option Err) :=
  match q with
  | ReqLog vs => Log vs
  | ReqLogNoStack e => LogNoStack e
  | ReqLogJson e => LogJson e
  end.

(** The call is turned away by the test of its arguments. *)
Definition refused (q : request) : bool :=
  match q with
  | ReqLog [] | ReqLogNoStack None | ReqLogJson None => true
  | _ => false
  end.

(** What the deferred function of the call writes. *)
Definition terminator (q : request) : list byte :=
  match q with
  | ReqLogJson _ => nl
  | _ => nl ++ nl
  end.

(** Calls made one after the other, whatever each returns. *)
Fixpoint serveAll (qs : list request) (l : FileLogger) : option FileLogger :=
  match qs with
  | [] => Some l
  | q :: rest =>
      match serve q l with
      | Some (_, l') => serveAll rest l'
      | None => None
      end
  end.

(** A write or a sync on the file. *)
Definition ioEvent (ev : event) : Prop :=
  match ev with
  | EvWrite _ _ _ | EvSync _ => True
  | EvLock | EvUnlock => False
  end.

(** [l'] is [l] after some writes and syncs, refused or not. *)
Definition later (l l' : FileLogger) : Prop :=
  (exists out, content (file l') = content (file l) ++ out)
  /\ (exists j, journal l' = journal l ++ j /\ Forall ioEvent j)
  /\ mutex l' = mutex l
  /\ logFilePath l' = logFilePath l.

Lemma later_refl l : later l l.
Proof.
  unfold later. split; [exists []; now rewrite app_nil_r|].
  split; [exists []; split; [now rewrite app_nil_r|constructor]|]. auto.
Qed.

Lemma later_trans l1 l2 l3 : later l1 l2 -> later l2 l3 -> later l1 l3.
Proof.
  intros ((o1 & C1) & (j1 & J1 & F1) & M1 & P1) ((o2 & C2) & (j2 & J2 & F2) & M2 & P2).
  unfold later. split; [|split; [|split; congruence]].
  - exists (o1 ++ o2). rewrite C2, C1, app_assoc. reflexivity.
  - exists (j1 ++ j2). split; [rewrite J2, J1, app_assoc; reflexivity|].
    apply Forall_app. auto.
Qed.

Lemma bind_some {A B} (m : M A) (k : A -> M B) l a l1 :
  m l = Some (a, l1) -> bind m k l = k a l1.
Proof. unfold bind. intros ->. reflexivity. Qed.

Lemma fileWrite_later b l :
  exists n r l', fileWrite b l = Some ((n, r), l')
    /\ later l l' /\ journal l' = journal l ++ [EvWrite b n r].
Proof.
  unfold fileWrite, osWrite.
  destruct (pending (file l)) as [|[|k e] rest]; do 3 eexists;
    (split; [reflexivity|]); (split; [|reflexivity]); unfold later; simpl;
    (split; [eexists; reflexivity|]);
    (split; [eexists; split; [reflexivity|repeat constructor]|]); auto.
Qed.

Lemma fileSync_later l : exists r l', fileSync l = Some (r, l') /\ later l l'.
Proof.
  unfold fileSync, osSync.
  destruct (pending (file l)) as [|[|k e] rest] eqn:Hp; do 2 eexists;
    (split; [reflexivity|]); unfold later; simpl;
    (split; [exists []; now rewrite app_nil_r|]);
    (split; [eexists; split; [reflexivity|repeat constructor]|]); auto.
Qed.

Lemma now_later l : exists t l', now l = Some (t, l') /\ later l l'.
Proof.
  unfold now. do 2 eexists. split; [reflexivity|]. unfold later. simpl.
  split; [exists []; now rewrite app_nil_r|].
  split; [exists []; split; [now rewrite app_nil_r|constructor]|]. auto.
Qed.

Lemma callLogFunc_later g : forall l,
  exists r l', callLogFunc g l = Some (r, l') /\ later l l'.
Proof.
  induction g as [r|b k IH]; intros l; simpl.
  - exists r, l. split; [reflexivity|apply later_refl].
  - destruct (fileWrite_later b l) as (n & r & l1 & Hw & L1 & _). rewrite Hw.
    destruct (IH n r l1) as (r' & l2 & Hc & L2).
    exists r', l2. split; [exact Hc|]. eapply later_trans; eauto.
Qed.

Lemma log_later g l : exists r l', log g l = Some (r, l') /\ later l l'.
Proof.
  destruct (callLogFunc_later g l) as (r & l1 & Hc & L1).
  unfold log. rewrite (bind_some _ _ _ _ _ Hc). destruct r as [e|].
  - exists (Some e), l1. auto.
  - destruct (fileSync_later l1) as (r & l2 & Hs & L2).
    rewrite (bind_some _ _ _ _ _ Hs).
    exists r, l2. split; [destruct r; reflexivity|]. eapply later_trans; eauto.
Qed.

Lemma logNonSherlogError_later e l :
  exists r l', logNonSherlogError e l = Some (r, l') /\ later l l'.
Proof.
  unfold logNonSherlogError.
  destruct (now_later l) as (t & l0 & H0 & L0). rewrite (bind_some _ _ _ _ _ H0).
  destruct (fileWrite_later (bytes t) l0) as (n1 & r1 & l1 & H1 & L1 & _).
  rewrite (bind_some _ _ _ _ _ H1). cbn [snd].
  pose proof (later_trans _ _ _ L0 L1) as L01.
  destruct r1 as [e1|]; [exists (Some e1), l1; auto|].
  destruct (fileWrite_later (bytes " - ") l1) as (n2 & r2 & l2 & H2 & L2 & _).
  rewrite (bind_some _ _ _ _ _ H2). cbn [snd].
  pose proof (later_trans _ _ _ L01 L2) as L02.
  destruct r2 as [e2|]; [exists (Some e2), l2; auto|].
  destruct (fileWrite_later (bytes (Error e)) l2) as (n3 & r3 & l3 & H3 & L3 & _).
  rewrite (bind_some _ _ _ _ _ H3). cbn [snd].
  exists r3, l3. split; [reflexivity|]. eapply later_trans; eauto.
Qed.

Lemma logEach_later vs : forall l,
  exists r l', logEach vs l = Some (r, l') /\ later l l'.
Proof.
  induction vs as [|v rest IH]; intros l.
  - exists None, l. split; [reflexivity|apply later_refl].
  - assert (Hnext : forall l1, later l l1 ->
               exists r l', match rest with
                            | [] => logEach rest
                            | _ :: _ => bind (fileWrite causedBy) (fun _ => logEach rest)
                            end l1 = Some (r, l') /\ later l l').
    { intros l1 L1. destruct rest as [|v' rest'].
      - destruct (IH l1) as (r & l' & H & L). exists r, l'.
        split; [exact H|]. eapply later_trans; eauto.
      - destruct (fileWrite_later causedBy l1) as (n & w & l2 & Hw & L2 & _).
        rewrite (bind_some _ _ _ _ _ Hw).
        destruct (IH l2) as (r & l' & H & L). exists r, l'.
        split; [exact H|]. eapply later_trans; [|exact L]. eapply later_trans; eauto. }
    simpl. destruct v as [|e|repr].
    + do 2 eexists. split; [reflexivity|apply later_refl].
    + destruct (LogM e) as [f|].
      * destruct (log_later f l) as (r & l1 & Hl & L1).
        rewrite (bind_some _ _ _ _ _ Hl). destruct r as [err|]; [|apply Hnext, L1].
        do 2 eexists. split; [reflexivity|exact L1].
      * destruct (logNonSherlogError_later e l) as (r & l1 & Hl & L1).
        rewrite (bind_some _ _ _ _ _ Hl). destruct r as [err|]; [|apply Hnext, L1].
        do 2 eexists. split; [reflexivity|exact L1].
    + destruct (fileWrite_later (bytes repr) l) as (n & w & l1 & Hw & L1 & _).
      rewrite (bind_some _ _ _ _ _ Hw). apply Hnext, L1.
Qed.

Lemma logJsonBody_later e l :
  exists r l', logJsonBody e l = Some (r, l') /\ later l l'.
Proof.
  unfold logJsonBody. destruct (LogAsJsonM e) as [f|]; [apply log_later|].
  destruct (now_later l) as (t & l0 & H0 & L0). rewrite (bind_some _ _ _ _ _ H0).
  destruct (jsonMarshal t (Error e)) as [jsonBytes|err].
  - destruct (fileWrite_later jsonBytes l0) as (n & w & l1 & Hw & L1 & _).
    rewrite (bind_some _ _ _ _ _ Hw). exists (snd (n, w)), l1.
    split; [reflexivity|]. eapply later_trans; eauto.
  - do 2 eexists. split; [reflexivity|exact L0].
Qed.

(** A body run between [Lock] and the deferred write and [Unlock]. *)
Lemma guarded_later (body : M (option Err)) (t : list byte) l :
  mutex l = false ->
  (forall l0, exists r l', body l0 = Some (r, l') /\ later l0 l') ->
  exists r l' j n w,
    bind Lock (fun _ => bind body (fun r =>
      bind (fileWrite t) (fun _ => bind Unlock (fun _ => ret r)))) l = Some (r, l')
    /\ mutex l' = false
    /\ logFilePath l' = logFilePath l
    /\ (exists out, content (file l') = content (file l) ++ out)
    /\ journal l' = journal l ++ [EvLock] ++ j ++ [EvWrite t n w; EvUnlock]
    /\ Forall ioEvent j.
Proof.
  intros Hm Hbody. unfold bind at 1. unfold Lock. rewrite Hm.
  set (l0 := note EvLock (setMutex true l)).
  destruct (Hbody l0) as (r & l1 & Hb & (o1 & C1) & (j1 & J1 & F1) & M1 & P1).
  rewrite (bind_some _ _ _ _ _ Hb).
  destruct (fileWrite_later t l1) as (n & w & l2 & Hw & ((o2 & C2) & _ & M2 & P2) & J2).
  rewrite (bind_some _ _ _ _ _ Hw). unfold bind, Unlock, ret.
  exists r, (note EvUnlock (setMutex false l2)), j1, n, w.
  split; [reflexivity|]. simpl. split; [reflexivity|].
  split; [rewrite P2, P1; reflexivity|].
  split; [exists (o1 ++ o2); rewrite C2, C1, app_assoc; reflexivity|].
  split; [|exact F1].
  rewrite J2, J1. subst l0. simpl. rewrite <- !app_assoc. reflexivity.
Qed.

(** What every call on a free sink comes to. *)
Lemma serve_shape q l :
  mutex l = false ->
  exists r l',
    serve q l = Some (r, l')
    /\ mutex l' = false
    /\ logFilePath l' = logFilePath l
    /\ (exists out, content (file l') = content (file l) ++ out)
    /\ if refused q
       then l' = l /\ r <> None
       else exists j n w,
           journal l' = journal l ++ [EvLock] ++ j ++ [EvWrite (terminator q) n w; EvUnlock]
           /\ Forall ioEvent j.
Proof.
  intros Hm. destruct q as [vs|e|e]; simpl.
  - destruct vs as [|v rest].
    + exists (Some (AsError (inl "no parameters provided to Log"%string))), l.
      split; [reflexivity|]. split; [exact Hm|]. split; [reflexivity|].
      split; [exists []; now rewrite app_nil_r|]. split; [reflexivity|discriminate].
    + destruct (guarded_later (logEach (v :: rest)) (nl ++ nl) l Hm (logEach_later _))
        as (r & l' & j & n & w & H & Hm' & Hp & Hc & Hj & Hf).
      exists r, l'. unfold Log. cbn [length Nat.ltb Nat.leb].
      split; [exact H|]. split; [exact Hm'|]. split; [exact Hp|].
      split; [exact Hc|]. exists j, n, w. split; assumption.
  - destruct e as [e|].
    + destruct (guarded_later
                  (match asNoStack e with
                   | Some f => log f
                   | None => logNonSherlogError e
                   end) (nl ++ nl) l Hm)
        as (r & l' & j & n & w & H & Hm' & Hp & Hc & Hj & Hf).
      { intros l0. destruct (asNoStack e); [apply log_later|apply logNonSherlogError_later]. }
      exists r, l'. unfold LogNoStack.
      split; [exact H|]. split; [exact Hm'|]. split; [exact Hp|].
      split; [exact Hc|]. exists j, n, w. split; assumption.
    + exists (Some (AsError (inl "tried to log nil error"%string))), l.
      split; [reflexivity|]. split; [exact Hm|]. split; [reflexivity|].
      split; [exists []; now rewrite app_nil_r|]. split; [reflexivity|discriminate].
  - destruct e as [e|].
    + destruct (guarded_later (logJsonBody e) nl l Hm (logJsonBody_later e))
        as (r & l' & j & n & w & H & Hm' & Hp & Hc & Hj & Hf).
      exists r, l'. unfold LogJson.
      split; [exact H|]. split; [exact Hm'|]. split; [exact Hp|].
      split; [exact Hc|]. exists j, n, w. split; assumption.
    + exists (Some (AsError (inl "tried to log nil error"%string))), l.
      split; [reflexivity|]. split; [exact Hm|]. split; [reflexivity|].
      split; [exists []; now rewrite app_nil_r|]. split; [reflexivity|discriminate].
Qed.

(** A call that is not turned away blocks on a lock that is held. *)
Lemma serve_blocked q l :
  mutex l = true -> refused q = false -> serve q l = None.
Proof.
  intros Hm Hq. destruct q as [[|v vs]|[e|]|[e|]]; simpl in Hq |- *; try discriminate Hq.
  - unfold Log. cbn [length Nat.ltb Nat.leb]. unfold bind at 1. unfold Lock.
    rewrite Hm. reflexivity.
  - unfold LogNoStack, bind at 1. unfold Lock. rewrite Hm. reflexivity.
  - unfold LogJson, bind at 1. unfold Lock. rewrite Hm. reflexivity.
Qed.

(** What a call that has returned has done. *)
Lemma serve_returned q l r l' :
  serve q l = Some (r, l') ->
  mutex l' = mutex l
  /\ logFilePath l' = logFilePath l
  /\ (exists out, content (file l') = content (file l) ++ out)
  /\ if refused q
     then l' = l /\ r <> None
     else mutex l = false
          /\ exists j n w,
              journal l' = journal l ++ [EvLock] ++ j ++ [EvWrite (terminator q) n w; EvUnlock]
              /\ Forall ioEvent j.
Proof.
  intros Hs. destruct (mutex l) eqn:Hm.
  - destruct (refused q) eqn:Hq.
    + destruct q as [[|v vs]|[e|]|[e|]]; simpl in Hq; try discriminate Hq;
        simpl in Hs; injection Hs as <- <-;
        (split; [exact Hm|]); (split; [reflexivity|]);
        (split; [exists []; now rewrite app_nil_r|]); (split; [reflexivity|discriminate]).
    + rewrite (serve_blocked q l Hm Hq) in Hs. discriminate Hs.
  - destruct (serve_shape q l Hm) as (r0 & l0 & H & Hm' & Hp & Hc & Hsh).
    rewrite H in Hs. injection Hs as <- <-.
    split; [exact Hm'|]. split; [exact Hp|]. split; [exact Hc|].
    destruct (refused q); [exact Hsh|]. split; [reflexivity|exact Hsh].
Qed.

(** X1: a call on the sink that returns has left the lock as it found it,
    whatever the system answered to its writes and syncs; a call turned away
    by the test of its arguments has left the sink as it was; any other
    found the lock free, took it, did writes and syncs only, and ended with
    the deferred write (two newlines, one for [LogJson]) and the release of
    the lock, also when it returns an error. *)
Theorem served_call_leaves_lock_free (q : request) (l : FileLogger)
    (r : option Err) (l' : FileLogger) :
  serve q l = Some (r, l') ->
  mutex l' = mutex l
  /\ if refused q
     then l' = l /\ r <> None
     else mutex l = false
          /\ exists j n w,
              journal l' = journal l ++ [EvLock] ++ j ++ [EvWrite (terminator q) n w; EvUnlock]
              /\ Forall ioEvent j.
Proof.
  intros Hs. destruct (serve_returned q l r l' Hs) as (Hm & _ & _ & Hsh). auto.
Qed.

(** X2: calls made one after the other on the sink, when each of them
    returns, leave the lock and the path as they were and never take a byte
    away from the file: what it held is still its beginning, whatever the
    calls returned and whatever the system refused. *)
Theorem served_calls_only_append (qs : list request) (l l' : FileLogger) :
  serveAll qs l = Some l' ->
  mutex l' = mutex l
  /\ logFilePath l' = logFilePath l
  /\ exists out, content (file l') = content (file l) ++ out.
Proof.
  revert l. induction qs as [|q rest IH]; intros l; simpl.
  - intros H. injection H as <-. split; [reflexivity|]. split; [reflexivity|].
    exists []. now rewrite app_nil_r.
  - destruct (serve q l) as [[r l1]|] eqn:Hs; [|discriminate]. intros Hrun.
    destruct (serve_returned q l r l1 Hs) as (Hm1 & Hp1 & (o1 & C1) & _).
    destruct (IH l1 Hrun) as (Hm' & Hp' & (o2 & C2)).
    split; [congruence|]. split; [congruence|].
    exists (o1 ++ o2). rewrite C2, C1, app_assoc. reflexivity.
Qed.

(** ** What the single-error calls write *)

(** A body run between [Lock] and the deferred write and [Unlock], when
    nothing is refused. *)
Lemma guarded_ready (body : M (option Err)) (t out : list byte) (r : option Err) l :
  mutex l = false ->
  (exists l1, body (note EvLock (setMutex true l)) = Some (r, l1)
              /\ content (file l1) = content (file l) ++ out
              /\ ready (file l1)) ->
  exists l',
    bind Lock (fun _ => bind body (fun r =>
      bind (fileWrite t) (fun _ => bind Unlock (fun _ => ret r)))) l = Some (r, l')
    /\ content (file l') = content (file l) ++ out ++ t
    /\ mutex l' = false.
Proof.
  intros Hm (l1 & Hb & C1 & R1). unfold bind at 1. unfold Lock. rewrite Hm.
  rewrite (bind_some _ _ _ _ _ Hb).
  destruct (fileWrite_ready t l1 R1) as (l2 & Hw & C2 & _).
  rewrite (bind_some _ _ _ _ _ Hw). unfold bind, Unlock, ret.
  eexists. split; [reflexivity|]. simpl. rewrite C2, C1, <- app_assoc. auto.
Qed.

(** What [LogNoStack] writes for an error, [clk] clock readings in, and
    what it returns, when nothing is refused. *)
Definition noStackBytes (clk : nat) (e : errval) : list byte :=
  match asNoStack e with
  | Some f => written f
  | None => bytes (timestamp clk) ++ bytes " - " ++ bytes (Error e)
  end.

Definition noStackAnswer (e : errval) : option Err :=
  match asNoStack e with
  | Some f => answer f
  | None => None
  end.

(** X3: [LogNoStack] of an error, on a free sink when nothing is refused:
    the file grows by what the error's [LogNoStack] writes, or by
    ["<time> - <message>"] when the error is no LoggableWithNoStackOption,
    and by two newlines; the call returns what the error's method returned.
    An error that has a [LogNoStack] method and no [Log] method is written
    the plain way. *)
Theorem LogNoStack_output (e : errval) (l : FileLogger) :
  mutex l = false ->
  ready (file l) ->
  (exists l',
      LogNoStack (Some e) l = Some (noStackAnswer e, l')
      /\ content (file l') = content (file l) ++ noStackBytes (clock l) e ++ nl ++ nl
      /\ mutex l' = false)
  /\ (LogM e = None ->
      noStackBytes (clock l) e = bytes (timestamp (clock l)) ++ bytes " - " ++ bytes (Error e)
      /\ noStackAnswer e = None).
Proof.
  intros Hm Hr. split.
  - unfold LogNoStack, noStackAnswer, noStackBytes.
    apply guarded_ready; [exact Hm|].
    assert (Hr0 : ready (file (note EvLock (setMutex true l)))) by exact Hr.
    destruct (asNoStack e) as [f|].
    + destruct (log_ready f _ Hr0) as (l1 & Hl & C1 & R1 & _). eauto.
    + destruct (logNonSherlogError_ready e _ Hr0) as (l1 & Hl & C1 & R1 & _). eauto.
  - intros Hl. unfold noStackBytes, noStackAnswer, asNoStack. rewrite Hl. auto.
Qed.

(** What [LogJson] writes for an error and what it returns, when nothing
    is refused. *)
Definition jsonOutput (clk : nat) (e : errval) : list byte * option Err :=
  match LogAsJsonM e with
  | Some f => (written f, answer f)
  | None =>
      match jsonMarshal (timestamp clk) (Error e) with
      | inl jsonBytes => (jsonBytes, None)
      | inr err => ([], Some err)
      end
  end.

(** X4: [LogJson] of an error, on a free sink when nothing is refused: the
    file grows by what the error's [LogAsJson] writes, or else by the
    marshalled time and message, and by one newline; the call returns what
    the method returned, or the error of the marshalling (the file then
    grows by the newline alone). *)
Theorem LogJson_output (e : errval) (l : FileLogger) :
  mutex l = false ->
  ready (file l) ->
  exists l',
    LogJson (Some e) l = Some (snd (jsonOutput (clock l) e), l')
    /\ content (file l') = content (file l) ++ fst (jsonOutput (clock l) e) ++ nl
    /\ mutex l' = false.
Proof.
  intros Hm Hr. unfold LogJson. apply guarded_ready; [exact Hm|].
  assert (Hr0 : ready (file (note EvLock (setMutex true l)))) by exact Hr.
  unfold logJsonBody, jsonOutput. destruct (LogAsJsonM e) as [f|].
  - destruct (log_ready f _ Hr0) as (l1 & Hl & C1 & R1 & _). eauto.
  - unfold bind at 1, now. cbn [clock note setMutex].
    destruct (jsonMarshal (timestamp (clock l)) (Error e)) as [jsonBytes|err].
    + match goal with |- context [bind (fileWrite jsonBytes) _ ?l0] =>
        destruct (fileWrite_ready jsonBytes l0 Hr) as (l1 & Hw & C1 & R1 & _)
      end.
      rewrite (bind_some _ _ _ _ _ Hw). eexists. split; [reflexivity|]. auto.
    + eexists. split; [reflexivity|]. simpl. rewrite app_nil_r. auto.
Qed.

(** ** The first value [Log] cannot take *)

(** The error [Log] stops on at a value, when nothing is refused: a nil
    value, or a Loggable whose [Log] fails by itself. *)
Definition failure (v : value) : option (string + Err) :=
  match v with
  | VNil => Some (inl "tried to log nil error"%string)
  | VErr e =>
      match LogM e with
      | Some f => match answer f with Some err => Some (inr err) | None => None end
      | None => None
      end
  | VOther _ => None
  end.

Lemma logEach_cons_ready v a b l :
  ready (file l) -> loggable v ->
  exists l1,
    logEach (v :: a :: b) l = logEach (a :: b) l1
    /\ content (file l1) = content (file l) ++ valueBytes (clock l) v ++ causedBy
    /\ ready (file l1)
    /\ clock l1 = clock l + ticks v.
Proof.
  intros Hr Hv. cbn [logEach]. destruct v as [|e|repr]; simpl in Hv.
  - contradiction.
  - unfold valueBytes, ticks. destruct (LogM e) as [f|].
    + destruct (log_ready f l Hr) as (l1 & Hl & C1 & R1 & _ & K1).
      rewrite (bind_some _ _ _ _ _ Hl), Hv.
      destruct (fileWrite_ready causedBy l1 R1) as (l2 & Hw & C2 & R2 & _ & K2).
      rewrite (bind_some _ _ _ _ _ Hw). exists l2. split; [reflexivity|].
      rewrite C2, C1, K2, K1, Nat.add_0_r, <- app_assoc. auto.
    + destruct (logNonSherlogError_ready e l Hr) as (l1 & Hl & C1 & R1 & _ & K1).
      rewrite (bind_some _ _ _ _ _ Hl).
      destruct (fileWrite_ready causedBy l1 R1) as (l2 & Hw & C2 & R2 & _ & K2).
      rewrite (bind_some _ _ _ _ _ Hw). exists l2. split; [reflexivity|].
      rewrite C2, C1, K2, K1, Nat.add_1_r, <- !app_assoc. auto.
  - destruct (fileWrite_ready (bytes repr) l Hr) as (l1 & Hl & C1 & R1 & _ & K1).
    rewrite (bind_some _ _ _ _ _ Hl).
    destruct (fileWrite_ready causedBy l1 R1) as (l2 & Hw & C2 & R2 & _ & K2).
    rewrite (bind_some _ _ _ _ _ Hw). exists l2. split; [reflexivity|].
    unfold valueBytes, ticks. rewrite C2, C1, K2, K1, Nat.add_0_r, <- app_assoc. auto.
Qed.

Lemma logEach_failure v vs2 x l :
  ready (file l) -> failure v = Some x ->
  exists l',
    logEach (v :: vs2) l = Some (Some (AsError x), l')
    /\ content (file l') = content (file l) ++ valueBytes (clock l) v
    /\ ready (file l').
Proof.
  intros Hr Hf. cbn [logEach]. destruct v as [|e|repr]; simpl in Hf; [| |discriminate].
  - injection Hf as <-. exists l. simpl. rewrite app_nil_r. auto.
  - unfold valueBytes. destruct (LogM e) as [f|]; [|discriminate].
    destruct (log_ready f l Hr) as (l1 & Hl & C1 & R1 & _).
    rewrite (bind_some _ _ _ _ _ Hl).
    destruct (answer f) as [err|]; [|discriminate]. injection Hf as <-.
    exists l1. auto.
Qed.

Lemma logEach_stops vs1 : forall v vs2 x l,
  ready (file l) -> Forall loggable vs1 -> failure v = Some x ->
  exists l',
    logEach (vs1 ++ v :: vs2) l = Some (Some (AsError x), l')
    /\ content (file l') = content (file l) ++ rendered (clock l) (vs1 ++ [v])
    /\ ready (file l').
Proof.
  induction vs1 as [|v0 vs1 IH]; intros v vs2 x l Hr Hvs Hf.
  - destruct (logEach_failure v vs2 x l Hr Hf) as (l' & H & C & R).
    exists l'. split; [exact H|]. split; [|exact R].
    rewrite C. cbn [app rendered]. rewrite !app_nil_r. reflexivity.
  - inversion Hvs as [|? ? Hv0 Hrest]; subst.
    assert (Hshape : exists a b c, vs1 ++ v :: vs2 = a :: b /\ vs1 ++ [v] = a :: c).
    { destruct vs1 as [|a vs1']; simpl; eauto. }
    destruct Hshape as (a & b & c & E1 & E2).
    cbn [app]. rewrite E1.
    destruct (logEach_cons_ready v0 a b l Hr Hv0) as (l1 & H1 & C1 & R1 & K1).
    rewrite H1, <- E1.
    destruct (IH v vs2 x l1 R1 Hrest Hf) as (l' & H & C & R).
    exists l'. split; [exact H|]. split; [|exact R].
    rewrite C, C1, K1, E2. cbn [rendered]. rewrite <- !app_assoc. reflexivity.
Qed.

(** X5: [Log] stops at the first value it cannot take, a nil value or a
    Loggable whose [Log] returns an error: on a free sink when nothing is
    refused, it returns that error through [AsError], and the file has grown
    by the values before it, each with its "Caused by:" line, by what the
    failing value wrote itself, and by the two newlines; the values after
    it are not looked at. *)
Theorem Log_stops_at_first_failure (vs1 : list value) (v : value) (vs2 : list value)
    (x : string + Err) (l : FileLogger) :
  mutex l = false ->
  ready (file l) ->
  Forall loggable vs1 ->
  failure v = Some x ->
  exists l',
    Log (vs1 ++ v :: vs2) l = Some (Some (AsError x), l')
    /\ content (file l')
       = content (file l) ++ rendered (clock l) (vs1 ++ [v]) ++ nl ++ nl
    /\ mutex l' = false.
Proof.
  intros Hm Hr Hvs Hf. unfold Log.
  assert (Hlen : (length (vs1 ++ v :: vs2) <? 1) = false).
  { apply Nat.ltb_ge. rewrite length_app. simpl. lia. }
  rewrite Hlen. apply guarded_ready; [exact Hm|].
  destruct (logEach_stops vs1 v vs2 x (note EvLock (setMutex true l)) Hr Hvs Hf)
    as (l1 & H & C & R).
  eauto.
Qed.

(** ** The severity methods *)

(** The levels the methods name, and [graduateOrConcatAndCreate] of the
    sherlog package, which makes one value of a level and the values
    given. *)
Inductive level :=
| EnumCritical
| EnumError
| EnumOpsError
| EnumWarning
| EnumInfo
| EnumDebug.

Variable graduateOrConcatAndCreate : level -> list value -> value.

(** [FileLogger.Critical] *)
Definition Critical (values : list value) : M (option Err) :=
  Log [graduateOrConcatAndCreate EnumCritical values].

(** [FileLogger.Error] *)
Definition Error' (values : list value) : M (option Err) :=
  Log [graduateOrConcatAndCreate EnumError values].

(** [FileLogger.OpsError] *)
Definition OpsError (values : list value) : M (option Err) :=
  Log [graduateOrConcatAndCreate EnumOpsError values].

(** [FileLogger.Warn] *)
Definition Warn (values : list value) : M (option Err) :=
  Log [graduateOrConcatAndCreate EnumWarning values].

(** [FileLogger.Info] *)
Definition Info (values : list value) : M (option Err) :=
  Log [graduateOrConcatAndCreate EnumInfo values].

(** [FileLogger.Debug] *)
Definition Debug (values : list value) : M (option Err) :=
  Log [graduateOrConcatAndCreate EnumDebug values].

(** The method of a level. *)
Definition leveled (lv : level) : list value -> M (option Err) :=
  match lv with
  | EnumCritical => Critical
  | EnumError => Error'
  | EnumOpsError => OpsError
  | EnumWarning => Warn
  | EnumInfo => Info
  | EnumDebug => Debug
  end.

(** X6: each of the six severity methods hands [Log] one value, however
    many values it was given, none included: on a free sink the call is
    never turned away for want of parameters, it takes the lock and ends with
    the two newlines and the release; and when nothing is refused and [Log]
    can take the value made, the file grows by that one value and the two
    newlines, with no "Caused by:" line. *)
Theorem leveled_logs_one_value (lv : level) (values : list value) (l : FileLogger) :
  mutex l = false ->
  (exists r l' j n w,
      leveled lv values l = Some (r, l')
      /\ mutex l' = false
      /\ journal l' = journal l ++ [EvLock] ++ j ++ [EvWrite (nl ++ nl) n w; EvUnlock])
  /\ (ready (file l) ->
      loggable (graduateOrConcatAndCreate lv values) ->
      exists l',
        leveled lv values l = Some (None, l')
        /\ content (file l')
           = content (file l)
             ++ valueBytes (clock l) (graduateOrConcatAndCreate lv values) ++ nl ++ nl).
Proof.
  intros Hm.
  assert (Heq : leveled lv values = Log [graduateOrConcatAndCreate lv values])
    by (destruct lv; reflexivity).
  rewrite Heq. split.
  - destruct (guarded_later (logEach [graduateOrConcatAndCreate lv values]) (nl ++ nl) l Hm
                (logEach_later _))
      as (r & l' & j & n & w & H & Hm' & _ & _ & Hj & _).
    exists r, l', j, n, w. unfold Log. cbn [length Nat.ltb Nat.leb].
    split; [exact H|]. split; assumption.
  - intros Hr Hv.
    destruct (Log_succeeds [graduateOrConcatAndCreate lv values] l) as (l' & H);
      [discriminate|exact Hm|exact Hr|repeat constructor; exact Hv|].
    exists l'. split; [exact H|].
    unfold Log in H. cbn [length Nat.ltb Nat.leb] in H.
    unfold bind at 1 in H. unfold Lock in H. rewrite Hm in H.
    unfold bind at 1 in H.
    destruct (logEach [graduateOrConcatAndCreate lv values] (note EvLock (setMutex true l)))
      as [[r l1]|] eqn:He; [|discriminate].
    destruct (fileWrite_later (nl ++ nl) l1) as (n & w & l2 & Hw & _).
    rewrite (bind_some _ _ _ _ _ Hw) in H. unfold bind, Unlock, ret in H.
    injection H as -> <-.
    apply logEach_ready in He; [|exact Hr]. destruct He as (C1 & R1 & _).
    destruct (fileWrite_ready (nl ++ nl) l1 R1) as (l2' & Hw' & C2 & _).
    rewrite Hw in Hw'. injection Hw' as _ _ <-.
    simpl. rewrite C2, C1. simpl. rewrite !app_nil_r, <- !app_assoc. reflexivity.
Qed.

End WithEnv.

Arguments IoOk {Err}.
Arguments IoFail {Err} n e.
Arguments mkFile {Err} content pending.
Arguments content {Err} f.
Arguments pending {Err} f.
Arguments EvLock {Err}.
Arguments EvUnlock {Err}.
Arguments EvWrite {Err} b n r.
Arguments EvSync {Err} r.
Arguments mkFileLogger {Err} logFilePath mutex file journal clock.
Arguments logFilePath {Err} f.
Arguments mutex {Err} f.
Arguments file {Err} f.
Arguments journal {Err} f.
Arguments clock {Err} f.
Arguments LfReturn {Err} r.
Arguments LfWrite {Err} b k.
Arguments mkErrval {Err} Error LogM LogNoStackM LogAsJsonM.
Arguments Error {Err} e.
Arguments LogM {Err} e.
Arguments LogNoStackM {Err} e.
Arguments LogAsJsonM {Err} e.
Arguments VNil {Err}.
Arguments VErr {Err} e.
Arguments VOther {Err} repr.
Arguments Log {Err} AsError timestamp errorsToLog l.
Arguments LogNoStack {Err} AsError timestamp errToLog l.
Arguments LogJson {Err} AsError timestamp jsonMarshal errToLog l.
Arguments NewFileLogger {Err} AsError openFile logFilePath.
Arguments opened {Err} path c.
Arguments ready {Err} f.
Arguments nextOk {Err} p.
Arguments written {Err} g.
Arguments rendered {Err} timestamp clk vs.

(** ** A concrete environment, for running the sink *)

Definition exAsError (x : string + string) : string :=
  match x with
  | inl s => s
  | inr e => e
  end.

Definition exTimestamp (n : nat) : string :=
  ("2019-03-07T10:15:0" ++ String (ascii_of_nat (48 + n mod 10)) EmptyString)%string.

(** A marshaller that writes the two fields between braces, and one that
    refuses. *)
Definition exJsonMarshal (t m : string) : list byte + string :=
  inl (bytes ("{Message:" ++ m ++ ",Time:" ++ t ++ "}")%string).

Definition exJsonRefuses (t m : string) : list byte + string :=
  inr "json: unsupported value"%string.

(** An error with no capability, and a Loggable that writes a line and
    its stack and hands back what the writer answered. *)
Definition exPlain : errval string := mkErrval "boom" None None None.

Definition exLoggable : errval string :=
  mkErrval "bad state"
    (Some (LfWrite (bytes "ERROR bad state")
             (fun _ r =>
                match r with
                | Some e => LfReturn (Some e)
                | None => LfWrite (bytes " at main.go:12") (fun _ r' => LfReturn r')
                end)))
    None None.

Definition exSink : FileLogger string := opened "app.log" [].

(** A sink whose next call on the file fails after two bytes. *)
Definition exSinkFailing : FileLogger string :=
  mkFileLogger "app.log" false (mkFile [] [IoFail 2 "disk full"%string]) [] 0.

Definition exValues : list (value string) := [VErr exLoggable; VErr exPlain].

Definition exSinkAfter : FileLogger string :=
  Eval vm_compute in
    match Log exAsError exTimestamp exValues exSink with
    | Some (_, l') => l'
    | None => exSink
    end.

Example Log_two_values :
  content (file exSinkAfter)
  = bytes "ERROR bad state at main.go:12" ++ nl ++ bytes "Caused by:" ++ nl
    ++ bytes "2019-03-07T10:15:00 - boom" ++ nl ++ nl.
Proof. reflexivity. Qed.

Lemma Log_renders_witness :
  content (file exSinkAfter)
  = content (file exSink) ++ rendered exTimestamp (clock exSink) exValues ++ nl ++ nl
  /\ mutex exSinkAfter = false.
Proof.
  apply (Log_renders string exAsError exTimestamp exValues exSink exSinkAfter).
  - constructor.
  - reflexivity.
Defined.


Example LogJson_failed_write_leaves_newline :
  exists l',
    LogJson exAsError exTimestamp exJsonMarshal (Some exPlain) exSinkFailing
    = Some (Some "disk full"%string, l')
    /\ content (file l') = bytes "{M" ++ nl.
Proof. eexists. split; reflexivity. Qed.

(** A sink whose disk refuses the next two calls altogether. *)
Definition exSinkDead : FileLogger string :=
  mkFileLogger "app.log" false
    (mkFile (bytes "old line") [IoFail 0 "disk full"%string; IoFail 0 "disk full"%string])
    [] 0.


(** The byte of ["-"] occurs in every ["<time> - <message>"]. *)
Lemma dash_in_plain_rendering (t msg : string) (rest : list byte) :
  In x2d (bytes t ++ bytes " - " ++ bytes msg ++ rest).
Proof. apply in_or_app. right. simpl. auto. Qed.

(** C9, counterexample: [Log("disk full")], a string and no error, succeeds
    and leaves ["disk full\n\n"] in the file, which is no
    ["<time> - <message>"] followed by two newlines, whatever the time and
    the message. *)
Lemma Log_other_value_no_timestamp :
  exists l',
    Log exAsError exTimestamp [VOther "disk full"] exSink = Some (None, l')
    /\ content (file l') = bytes "disk full" ++ nl ++ nl
    /\ ~ exists t msg,
          content (file l') = bytes t ++ bytes " - " ++ bytes msg ++ nl ++ nl.
Proof.
  eexists. split; [reflexivity|]. split; [reflexivity|].
  intros (t & msg & H).
  pose proof (dash_in_plain_rendering t msg (nl ++ nl)) as Hin.
  rewrite <- H in Hin. simpl in Hin.
  repeat (destruct Hin as [Hin|Hin]; [discriminate Hin|]). exact Hin.
Qed.

(** ** Running the calls of the sink *)

Arguments ReqLog {Err} errorsToLog.
Arguments ReqLogNoStack {Err} errToLog.
Arguments ReqLogJson {Err} errToLog.
Arguments serve {Err} AsError timestamp jsonMarshal q l.
Arguments serveAll {Err} AsError timestamp jsonMarshal qs l.
Arguments refused {Err} q.
Arguments terminator {Err} q.
Arguments ioEvent {Err} ev.
Arguments noStackBytes {Err} timestamp clk e.
Arguments noStackAnswer {Err} e.
Arguments jsonOutput {Err} timestamp jsonMarshal clk e.
Arguments failure {Err} v.
Arguments loggable {Err} v.
Arguments valueBytes {Err} timestamp clk v.
Arguments leveled {Err} AsError timestamp graduateOrConcatAndCreate lv values l.

(** An error with a [LogNoStack] method and no [Log] method. *)
Definition exNoStackOnly : errval string :=
  mkErrval "odd" None (Some (LfWrite (bytes "ODD") (fun _ r => LfReturn r))) None.

(** A Loggable whose [Log] writes a line and then fails by itself. *)
Definition exBroken : errval string :=
  mkErrval "broken"
    (Some (LfWrite (bytes "half") (fun _ _ => LfReturn (Some "cannot render"%string))))
    None None.

(** A [graduateOrConcatAndCreate] that names the level and counts the
    values. *)
Definition exGraduate (lv : level) (values : list (value string)) : value string :=
  VErr (mkErrval "leveled"
          (Some (LfWrite
                   (bytes match lv with
                          | EnumCritical => "CRITICAL"
                          | EnumError => "ERROR"
                          | EnumOpsError => "OPS_ERROR"
                          | EnumWarning => "WARNING"
                          | EnumInfo => "INFO"
                          | EnumDebug => "DEBUG"
                          end
                    ++ repeat x2a (length values))
                   (fun _ r => LfReturn r)))
          None None).

Definition exRequests : list (request string) :=
  [ReqLog [VNil]; ReqLogJson (Some exPlain); ReqLogNoStack None; ReqLog [VErr exLoggable]].

Example serveAll_on_failing_disk :
  option_map (fun l => content (file l))
    (serveAll exAsError exTimestamp exJsonMarshal exRequests exSinkFailing)
  = Some (nl ++ nl ++ bytes "{Message:boom,Time:2019-03-07T10:15:00}" ++ nl
          ++ bytes "ERROR bad state at main.go:12" ++ nl ++ nl).
Proof. vm_compute. reflexivity. Qed.

Definition exServedOnce : option string * FileLogger string :=
  Eval vm_compute in
    match serve exAsError exTimestamp exJsonMarshal (ReqLog [VErr exPlain]) exSinkFailing with
    | Some x => x
    | None => (None, exSinkFailing)
    end.

Lemma served_call_leaves_lock_free_witness :
  mutex (snd exServedOnce) = mutex exSinkFailing
  /\ if refused (ReqLog [VErr exPlain])
     then snd exServedOnce = exSinkFailing /\ fst exServedOnce <> None
     else mutex exSinkFailing = false
          /\ exists j n w,
              journal (snd exServedOnce)
              = journal exSinkFailing ++ [EvLock] ++ j
                ++ [EvWrite (terminator (ReqLog [VErr exPlain])) n w; EvUnlock]
              /\ Forall ioEvent j.
Proof.
  apply (served_call_leaves_lock_free string exAsError exTimestamp exJsonMarshal
           (ReqLog [VErr exPlain]) exSinkFailing (fst exServedOnce) (snd exServedOnce)).
  vm_compute. reflexivity.
Defined.

Example failed_Log_still_unlocks :
  fst exServedOnce = Some "disk full"%string
  /\ journal (snd exServedOnce)
     = [EvLock;
        EvWrite (bytes "2019-03-07T10:15:00") 2 (Some "disk full"%string);
        EvWrite (nl ++ nl) 2 None;
        EvUnlock].
Proof. split; reflexivity. Qed.

Definition exOldSink : FileLogger string :=
  mkFileLogger "app.log" false (mkFile (bytes "old line") [IoFail 2 "disk full"%string]) [] 0.

Definition exServedAll : FileLogger string :=
  Eval vm_compute in
    match serveAll exAsError exTimestamp exJsonMarshal exRequests exOldSink with
    | Some l => l
    | None => exOldSink
    end.

Lemma served_calls_only_append_witness :
  mutex exServedAll = mutex exOldSink
  /\ logFilePath exServedAll = logFilePath exOldSink
  /\ exists out, content (file exServedAll) = content (file exOldSink) ++ out.
Proof.
  apply (served_calls_only_append string exAsError exTimestamp exJsonMarshal exRequests
           exOldSink exServedAll).
  vm_compute. reflexivity.
Defined.

Lemma LogNoStack_output_witness :
  (exists l',
      LogNoStack exAsError exTimestamp (Some exNoStackOnly) exSink
      = Some (noStackAnswer exNoStackOnly, l')
      /\ content (file l')
         = content (file exSink) ++ noStackBytes exTimestamp (clock exSink) exNoStackOnly
           ++ nl ++ nl
      /\ mutex l' = false)
  /\ (LogM exNoStackOnly = None ->
      noStackBytes exTimestamp (clock exSink) exNoStackOnly
      = bytes (exTimestamp (clock exSink)) ++ bytes " - " ++ bytes (Error exNoStackOnly)
      /\ noStackAnswer exNoStackOnly = None).
Proof.
  apply (LogNoStack_output string exAsError exTimestamp exNoStackOnly exSink).
  - reflexivity.
  - constructor.
Defined.

Example LogNoStack_without_Log_is_plain :
  option_map (fun '(r, l) => (r, content (file l)))
    (LogNoStack exAsError exTimestamp (Some exNoStackOnly) exSink)
  = Some (None, bytes "2019-03-07T10:15:00 - odd" ++ nl ++ nl).
Proof. vm_compute. reflexivity. Qed.

Lemma LogJson_output_witness :
  exists l',
    LogJson exAsError exTimestamp exJsonMarshal (Some exPlain) exSink
    = Some (snd (jsonOutput exTimestamp exJsonMarshal (clock exSink) exPlain), l')
    /\ content (file l')
       = content (file exSink)
         ++ fst (jsonOutput exTimestamp exJsonMarshal (clock exSink) exPlain) ++ nl
    /\ mutex l' = false.
Proof.
  apply (LogJson_output string exAsError exTimestamp exJsonMarshal exPlain exSink).
  - reflexivity.
  - constructor.
Defined.

Lemma Log_stops_at_first_failure_witness :
  exists l',
    Log exAsError exTimestamp ([VErr exPlain] ++ VErr exBroken :: [VErr exLoggable]) exSink
    = Some (Some (exAsError (inr "cannot render"%string)), l')
    /\ content (file l')
       = content (file exSink)
         ++ rendered exTimestamp (clock exSink) ([VErr exPlain] ++ [VErr exBroken])
         ++ nl ++ nl
    /\ mutex l' = false.
Proof.
  apply (Log_stops_at_first_failure string exAsError exTimestamp
           [VErr exPlain] (VErr exBroken) [VErr exLoggable] (inr "cannot render"%string)
           exSink).
  - reflexivity.
  - constructor.
  - repeat constructor.
  - reflexivity.
Defined.

Example Log_stops_at_broken_value :
  option_map (fun '(r, l) => (r, content (file l)))
    (Log exAsError exTimestamp [VErr exPlain; VErr exBroken; VErr exLoggable] exSink)
  = Some (Some "cannot render"%string,
          bytes "2019-03-07T10:15:00 - boom" ++ nl ++ bytes "Caused by:" ++ nl
          ++ bytes "half" ++ nl ++ nl).
Proof. vm_compute. reflexivity. Qed.

Lemma leveled_logs_one_value_witness :
  (exists r l' j n w,
      leveled exAsError exTimestamp exGraduate EnumWarning [] exSink = Some (r, l')
      /\ mutex l' = false
      /\ journal l'
         = journal exSink ++ [EvLock] ++ j ++ [EvWrite (nl ++ nl) n w; EvUnlock])
  /\ (ready (file exSink) ->
      loggable (exGraduate EnumWarning []) ->
      exists l',
        leveled exAsError exTimestamp exGraduate EnumWarning [] exSink = Some (None, l')
        /\ content (file l')
           = content (file exSink)
             ++ valueBytes exTimestamp (clock exSink) (exGraduate EnumWarning [])
             ++ nl ++ nl).
Proof.
  apply (leveled_logs_one_value string exAsError exTimestamp exGraduate
           EnumWarning [] exSink).
  reflexivity.
Defined.

Example Warn_with_no_values :
  option_map (fun '(r, l) => (r, content (file l)))
    (leveled exAsError exTimestamp exGraduate EnumWarning [] exSink)
  = Some (None, bytes "WARNING" ++ nl ++ nl).
Proof. vm_compute. reflexivity. Qed.

End FileSink.

(* ===================================================================== *)
(** * size_based_rolling_file_logger.go *)
(* ===================================================================== *)

Module Rolling.

Local Open Scope Z_scope.

(** Go's [int] on a 64-bit platform. *)
Definition maxInt : Z := 2 ^ 63 - 1.
Definition minInt : Z := - 2 ^ 63.
Definition wrapInt (z : Z) : Z := (z + 2 ^ 63) mod 2 ^ 64 - 2 ^ 63.

Section WithDelegate.

Variable Err : Type.
(** The [error] handed to the log calls (nil included). *)
Variable Event : Type.
(** [AsError], [NewLeveledException] and [EnumError] of the sherlog
    package, and [getTimestampedFileName]. *)
Variable AsError : string + Err -> Err.
Variable Level : Type.
Variable EnumError : Level.
Variable NewLeveledException : string -> Level -> Err.
Variable getTimestampedFileName : string -> string.
(** [os.OpenFile] on the file system as it is. *)
Variable openFile : string -> FileSink.File Err + Err.

(** [RollingFileLogger], with the fields the constructor sets. *)
Record RollingFileLogger := mkRollingFileLogger {
  fileLogger : FileSink.FileLogger Err;
  baseFilePath : string
}.

(** A call on the embedded [RollingFileLogger]: [None] when it blocks. *)
Definition R (A : Type) : Type := RollingFileLogger -> option (A * RollingFileLogger).

(** The methods of the embedded [RollingFileLogger] that the size-based
    logger calls; they are defined with that struct. *)
Variable rflLog : Event -> R (option Err).
Variable rflLogNoStack : Event -> R (option Err).
Variable rflLogJson : Event -> R (option Err).
Variable rflRoll : R (option Err).

(** [SizeBasedRollingFileLogger]; [rolls] is ghost: how many times [roll]
    ran. *)
Record SizeBasedRollingFileLogger := mkSizeBased {
  rolling : RollingFileLogger;
  countToRollOn : Z;
  curCount : Z;
  rolls : nat
}.

Definition S_ (A : Type) : Type :=
  SizeBasedRollingFileLogger -> option (A * SizeBasedRollingFileLogger).

(** A call on the embedded struct, seen from the outer one. *)
Definition embedded {A} (m : R A) : S_ A :=
  fun s => match m (rolling s) with
           | Some (a, r') =>
               Some (a, mkSizeBased r' (countToRollOn s) (curCount s) (rolls s))
           | None => None
           end.

(** [NewRollingFileLoggerWithSizeLimit] *)
Definition NewRollingFileLoggerWithSizeLimit (logFilePath : string) (numMessagesPerFile : Z)
  : SizeBasedRollingFileLogger + Err :=
  if numMessagesPerFile <=? 0 then
    inr (NewLeveledException "log files must have room for at least 1 message." EnumError)
  else
    match FileSink.NewFileLogger AsError openFile (getTimestampedFileName logFilePath) with
    | inr err => inr err
    | inl fl =>
        inl (mkSizeBased (mkRollingFileLogger fl logFilePath) numMessagesPerFile 0 0)
    end.

(** [SizeBasedRollingFileLogger.roll] *)
Definition roll : S_ (option Err) :=
  fun s => match embedded rflRoll s with
           | Some (err, s') =>
               Some (err, mkSizeBased (rolling s') (countToRollOn s') 0 (S (rolls s')))
           | None => None
           end.

(** [SizeBasedRollingFileLogger.incAndRollIfNecessary] *)
Definition incAndRollIfNecessary : S_ (option Err) :=
  fun s =>
    let s1 := mkSizeBased (rolling s) (countToRollOn s) (wrapInt (curCount s + 1)) (rolls s) in
    if curCount s1 >=? countToRollOn s1 then roll s1 else Some (None, s1).

(** [SizeBasedRollingFileLogger.Log] *)
Definition Log (errToLog : Event) : S_ (option Err) :=
  fun s => match embedded (rflLog errToLog) s with
           | Some (Some err, s') => Some (Some err, s')
           | Some (None, s') => incAndRollIfNecessary s'
           | None => None
           end.

(** [SizeBasedRollingFileLogger.LogNoStack] *)
Definition LogNoStack (errToLog : Event) : S_ (option Err) :=
  fun s => match embedded (rflLogNoStack errToLog) s with
           | Some (Some err, s') => Some (Some err, s')
           | Some (None, s') => incAndRollIfNecessary s'
           | None => None
           end.

(** [SizeBasedRollingFileLogger.LogJson] *)
Definition LogJson (errToLog : Event) : S_ (option Err) :=
  fun s => match embedded (rflLogJson errToLog) s with
           | Some (Some err, s') => Some (Some err, s')
           | Some (None, s') => incAndRollIfNecessary s'
           | None => None
           end.

(** One log call on the sink. *)
Inductive call :=
| CallLog (e : Event)
| CallLogNoStack (e : Event)
| CallLogJson (e : Event).

Definition delegated (c : call) : R (option Err) :=
  match c with
  | CallLog e => rflLog e
  | CallLogNoStack e => rflLogNoStack e
  | CallLogJson e => rflLogJson e
  end.

Definition perform (c : call) : S_ (option Err) :=
  match c with
  | CallLog e => Log e
  | CallLogNoStack e => LogNoStack e
  | CallLogJson e => LogJson e
  end.

(** Calls made one after the other, whatever each returns. *)
Fixpoint performAll (cs : list call) (s : SizeBasedRollingFileLogger)
  : option SizeBasedRollingFileLogger :=
  match cs with
  | [] => Some s
  | c :: rest =>
      match perform c s with
      | Some (_, s') => performAll rest s'
      | None => None
      end
  end.

(** ** The count *)

(** What holds of the count between two calls. *)
Definition countInv (s : SizeBasedRollingFileLogger) : Prop :=
  1 <= countToRollOn s <= maxInt /\ 0 <= curCount s < countToRollOn s.

Lemma wrapInt_small z : minInt <= z <= maxInt -> wrapInt z = z.
Proof.
  unfold wrapInt, minInt, maxInt. intros H.
  rewrite Z.mod_small; lia.
Qed.

(** The three log methods are one shape over the delegated call. *)
Lemma perform_unfold c s :
  perform c s
  = match delegated c (rolling s) with
    | Some (Some err, r') =>
        Some (Some err, mkSizeBased r' (countToRollOn s) (curCount s) (rolls s))
    | Some (None, r') =>
        incAndRollIfNecessary (mkSizeBased r' (countToRollOn s) (curCount s) (rolls s))
    | None => None
    end.
Proof.
  destruct c as [e|e|e]; simpl; unfold Log, LogNoStack, LogJson, embedded.
  - destruct (rflLog e (rolling s)) as [[[err|] r']|]; reflexivity.
  - destruct (rflLogNoStack e (rolling s)) as [[[err|] r']|]; reflexivity.
  - destruct (rflLogJson e (rolling s)) as [[[err|] r']|]; reflexivity.
Qed.

Lemma incAndRollIfNecessary_spec s res s' :
  countInv s ->
  incAndRollIfNecessary s = Some (res, s') ->
  countToRollOn s' = countToRollOn s
  /\ if curCount s + 1 <? countToRollOn s
     then curCount s' = curCount s + 1 /\ rolls s' = rolls s /\ res = None
          /\ rolling s' = rolling s
     else curCount s' = 0 /\ rolls s' = S (rolls s)
          /\ rflRoll (rolling s) = Some (res, rolling s').
Proof.
  intros [Ht Hc]. unfold incAndRollIfNecessary. cbn [curCount countToRollOn].
  rewrite wrapInt_small by (unfold minInt, maxInt in *; lia).
  destruct (curCount s + 1 <? countToRollOn s) eqn:Hlt.
  - apply Z.ltb_lt in Hlt.
    destruct (curCount s + 1 >=? countToRollOn s) eqn:Hge; [lia|].
    intros H. injection H as <- <-. simpl. auto.
  - apply Z.ltb_ge in Hlt.
    destruct (curCount s + 1 >=? countToRollOn s) eqn:Hge; [|lia].
    unfold roll, embedded. cbn [rolling countToRollOn curCount rolls].
    destruct (rflRoll (rolling s)) as [[err r']|]; [|discriminate].
    intros H. injection H as <- <-. simpl. auto.
Qed.

Lemma perform_keeps_inv c s res s' :
  countInv s -> perform c s = Some (res, s') ->
  countInv s' /\ countToRollOn s' = countToRollOn s.
Proof.
  intros Hi. rewrite perform_unfold.
  destruct (delegated c (rolling s)) as [[[err|] r']|]; [| |discriminate].
  - intros H. injection H as <- <-. exact (conj Hi eq_refl).
  - intros H. apply incAndRollIfNecessary_spec in H; [|exact Hi].
    cbn [curCount countToRollOn rolls rolling] in H. destruct H as (Ht & H).
    unfold countInv in *. rewrite Ht.
    destruct (curCount s + 1 <? countToRollOn s) eqn:Hlt.
    + apply Z.ltb_lt in Hlt. destruct H as (Hc & _). lia.
    + destruct H as (Hc & _). lia.
Qed.

(** The constructor hands out a sink whose count is in order. *)
Lemma constructed_countInv path n s :
  n <= maxInt ->
  NewRollingFileLoggerWithSizeLimit path n = inl s ->
  countInv s /\ countToRollOn s = n /\ curCount s = 0.
Proof.
  unfold NewRollingFileLoggerWithSizeLimit. intros Hn.
  destruct (n <=? 0) eqn:Hle; [discriminate|]. apply Z.leb_gt in Hle.
  destruct (FileSink.NewFileLogger _ _ _) as [fl|err]; [|discriminate].
  intros H. injection H as <-. unfold countInv. simpl. lia.
Qed.

(** C6: when the delegated call returns an error, the log call returns
    that error with the count and the number of rolls as they were; and a
    log call that moved the count or rolled had its delegated call return
    no error. *)
Theorem failed_write_skips_roll (c : call) (s : SizeBasedRollingFileLogger) :
  (forall err r',
      delegated c (rolling s) = Some (Some err, r') ->
      perform c s
      = Some (Some err, mkSizeBased r' (countToRollOn s) (curCount s) (rolls s)))
  /\ (forall res s',
      perform c s = Some (res, s') ->
      curCount s' <> curCount s \/ rolls s' <> rolls s ->
      exists r', delegated c (rolling s) = Some (None, r')).
Proof.
  rewrite perform_unfold. split.
  - intros err r' ->. reflexivity.
  - intros res s'. destruct (delegated c (rolling s)) as [[[err|] r']|]; [| |discriminate].
    + intros H. injection H as <- <-. simpl. intros [H|H]; contradiction.
    + eauto.
Qed.


(** C8: a threshold of 0 or less is refused with the validation error
    and no sink; from 1 on the outcome is that of opening the file: the
    sink, with that threshold and a count of 0, or the error of the
    opening. *)
Theorem constructor_validates_threshold (logFilePath : string) (n : Z) :
  (n <= 0 ->
   NewRollingFileLoggerWithSizeLimit logFilePath n
   = inr (NewLeveledException "log files must have room for at least 1 message."
            EnumError))
  /\ (1 <= n ->
      NewRollingFileLoggerWithSizeLimit logFilePath n
      = match openFile (getTimestampedFileName logFilePath) with
        | inl f =>
            inl (mkSizeBased
                   (mkRollingFileLogger
                      (FileSink.mkFileLogger (getTimestampedFileName logFilePath)
                         false f [] 0%nat)
                      logFilePath)
                   n 0 0)
        | inr err => inr (AsError (inr err))
        end).
Proof.
  unfold NewRollingFileLoggerWithSizeLimit, FileSink.NewFileLogger. split; intros H.
  - destruct (n <=? 0) eqn:Hle; [reflexivity|]. apply Z.leb_gt in Hle. lia.
  - destruct (n <=? 0) eqn:Hle; [apply Z.leb_le in Hle; lia|].
    destruct (openFile (getTimestampedFileName logFilePath)); reflexivity.
Qed.

(** ** Counting the writes *)

(** The delegated call of [c] on [s] returns no error. *)
Definition wrote (c : call) (s : SizeBasedRollingFileLogger) : bool :=
  match delegated c (rolling s) with
  | Some (None, _) => true
  | _ => false
  end.

(** How many calls of a run had their delegated call return no error. *)
Fixpoint successes (cs : list call) (s : SizeBasedRollingFileLogger) : nat :=
  match cs with
  | [] => 0
  | c :: rest =>
      match perform c s with
      | Some (_, s') => (if wrote c s then 1 else 0) + successes rest s'
      | None => 0
      end
  end.


End WithDelegate.

Arguments mkRollingFileLogger {Err} fileLogger baseFilePath.
Arguments fileLogger {Err} r.
Arguments baseFilePath {Err} r.
Arguments mkSizeBased {Err} rolling countToRollOn curCount rolls.
Arguments rolling {Err} s.
Arguments countToRollOn {Err} s.
Arguments curCount {Err} s.
Arguments rolls {Err} s.
Arguments CallLog {Event} e.
Arguments CallLogNoStack {Event} e.
Arguments CallLogJson {Event} e.
Arguments delegated {Err Event} rflLog rflLogNoStack rflLogJson c _.
Arguments perform {Err Event} rflLog rflLogNoStack rflLogJson rflRoll c _.
Arguments performAll {Err Event} rflLog rflLogNoStack rflLogJson rflRoll cs s.
Arguments countInv {Err} s.

(** ** A concrete rolling sink, for running it *)

Section Running.

Import FileSink.

(** The [error] of a call, nil included, as the value [FileLogger.Log]
    receives. *)
Definition toValue (e : option (errval string)) : value string :=
  match e with
  | None => VNil
  | Some x => VErr x
  end.

(** A method of the embedded [FileLogger], promoted. *)
Definition promoted {A} (m : M string A) : R string A :=
  fun r => match m (fileLogger r) with
           | Some (a, fl) => Some (a, mkRollingFileLogger fl (baseFilePath r))
           | None => None
           end.

Definition exName (path : string) : string := (path ++ ".2019-03-07T10-15-00")%string.

(** A file system where every file can be opened, empty, and one where
    none can. *)
Definition exOpens (path : string) : File string + string := inl (mkFile [] []).
Definition exRefuses (path : string) : File string + string :=
  inr "permission denied"%string.

(** Modelled from the spec: the methods of [RollingFileLogger] are not in
    these files. The three log calls are those of the File Sink the struct
    embeds; [roll] opens a file with a fresh timestamped name derived from
    the base path and makes it the active File Sink in place of the previous
    one, and when the opening fails it returns that error. *)
Definition exLog (e : option (errval string)) : R string (option string) :=
  promoted (FileSink.Log exAsError exTimestamp [toValue e]).
Definition exLogNoStack (e : option (errval string)) : R string (option string) :=
  promoted (FileSink.LogNoStack exAsError exTimestamp e).
Definition exLogJson (e : option (errval string)) : R string (option string) :=
  promoted (FileSink.LogJson exAsError exTimestamp exJsonMarshal e).
Definition exRoll (openFile : string -> File string + string)
  : R string (option string) :=
  fun r => match NewFileLogger exAsError openFile (exName (baseFilePath r)) with
           | inl fl => Some (None, mkRollingFileLogger fl (baseFilePath r))
           | inr err => Some (Some err, r)
           end.

(** A sink that rolls every two messages, with one message in already. *)
Definition exSizeBased : SizeBasedRollingFileLogger string :=
  mkSizeBased (mkRollingFileLogger (opened (exName "app.log") []) "app.log") 2 1 0.

End Running.

Example rolls_on_second_message :
  option_map (fun s => (curCount s, rolls s))
    (performAll exLog exLogNoStack exLogJson (exRoll exOpens)
       [CallLog (Some FileSink.exPlain)] exSizeBased)
  = Some (0, 1%nat).
Proof. reflexivity. Qed.

Example count_reset_when_open_fails :
  option_map (fun '(res, s) => (res, curCount s, rolls s))
    (perform exLog exLogNoStack exLogJson (exRoll exRefuses)
       (CallLogJson (Some FileSink.exPlain)) exSizeBased)
  = Some (Some "permission denied"%string, 0, 1%nat).
Proof. reflexivity. Qed.

Lemma failed_write_skips_roll_witness :
  perform exLog exLogNoStack exLogJson (exRoll exOpens) (CallLog None) exSizeBased
  = Some (Some "tried to log nil error"%string,
          mkSizeBased
            (mkRollingFileLogger
               (FileSink.mkFileLogger (exName "app.log") false
                  (FileSink.mkFile [x0a; x0a] [])
                  [FileSink.EvLock; FileSink.EvWrite [x0a; x0a] 2 None; FileSink.EvUnlock]
                  0%nat)
               "app.log")
            2 1 0).
Proof.
  apply (proj1 (failed_write_skips_roll string _ exLog exLogNoStack exLogJson
                  (exRoll exOpens) (CallLog None) exSizeBased)).
  reflexivity.
Defined.

Definition exCalls : list (call (option (FileSink.errval string))) :=
  [CallLogJson (Some FileSink.exPlain); CallLog None; CallLogNoStack (Some FileSink.exLoggable)].

Definition exSizeBasedAfter : SizeBasedRollingFileLogger string :=
  Eval vm_compute in
    match performAll exLog exLogNoStack exLogJson (exRoll exOpens) exCalls exSizeBased with
    | Some s => s
    | None => exSizeBased
    end.


Lemma constructor_validates_threshold_witness :
  NewRollingFileLoggerWithSizeLimit string FileSink.exAsError unit tt (fun msg _ => msg)
    exName exOpens "app.log" 0
  = inr "log files must have room for at least 1 message."%string
  /\ NewRollingFileLoggerWithSizeLimit string FileSink.exAsError unit tt (fun msg _ => msg)
       exName exOpens "app.log" 3
     = inl (mkSizeBased
              (mkRollingFileLogger (FileSink.opened (exName "app.log") []) "app.log")
              3 0 0).
Proof.
  split.
  - apply (proj1 (constructor_validates_threshold string FileSink.exAsError unit tt
                    (fun msg _ => msg) exName exOpens "app.log" 0)).
    lia.
  - apply (proj2 (constructor_validates_threshold string FileSink.exAsError unit tt
                    (fun msg _ => msg) exName exOpens "app.log" 3)).
    lia.
Defined.

Arguments successes {Err Event} rflLog rflLogNoStack rflLogJson rflRoll cs s.

Example two_writes_counted :
  successes exLog exLogNoStack exLogJson (exRoll exOpens) exCalls exSizeBased = 2%nat.
Proof. vm_compute. reflexivity. Qed.


End Rolling.

(* ===================================================================== *)
(** * PolyLogger *)
(* ===================================================================== *)

Module Poly.

Section WithWorld.

Variable Err : Type.
(** The [error] handed to the log calls. *)
Variable Event : Type.
(** All that the loggers of the composite and the failure handler act on:
    files, consoles, the handler's own state. *)
Variable W : Type.

(** A [Logger] held by the composite: its three log methods, each one
    step on the world, and whether its dynamic type is also a
    [RobustLogger]. *)
Record Logger := mkLogger {
  Log : Event -> W -> W * option Err;
  LogNoStack : Event -> W -> W * option Err;
  LogJson : Event -> W -> W * option Err;
  isRobust : bool
}.

(** [PolyLogger]; [waitGroup] is the counter of the [sync.WaitGroup], and
    a nil [handleLoggerFail] is [None]. *)
Record PolyLogger := mkPolyLogger {
  Loggers : list Logger;
  handleLoggerFail : option (Err -> W -> W);
  waitGroup : Z
}.

(** [NewPolyLoggerWithHandleLoggerFail] *)
Definition NewPolyLoggerWithHandleLoggerFail
    (loggers : list Logger) (handler : option (Err -> W -> W)) : PolyLogger :=
  mkPolyLogger loggers handler 0.

(** [NewPolyLogger], with [defaultHandleLoggerFail] = [log.Println]. *)
Definition NewPolyLogger (println : Err -> W -> W) (loggers : list Logger) : PolyLogger :=
  NewPolyLoggerWithHandleLoggerFail loggers (Some println).

(** The three log methods of the composite. *)
Inductive method := MLog | MLogNoStack | MLogJson.

(** [Log] goes to every logger, the other two to the robust ones. *)
Definition dispatched (m : method) (lg : Logger) : bool :=
  match m with
  | MLog => true
  | MLogNoStack | MLogJson => isRobust lg
  end.

(** The method value handed to [runLoggerWithFail]. *)
Definition logFunc (m : method) (lg : Logger) : Event -> W -> W * option Err :=
  match m with
  | MLog => Log lg
  | MLogNoStack => LogNoStack lg
  | MLogJson => LogJson lg
  end.

(** Where the goroutine of [runLoggerWithFail] stands: spawned; back from
    [logFunc] with [err]; past the [if], the deferred [Add(-1)] still to
    run; gone. *)
Inductive phase :=
| Started
| Called (err : option Err)
| Handled (err : option Err)
| Exited (err : option Err).

(** What became of the i-th logger in the loop of the call. *)
Inductive slot :=
| NotReached
| Skipped
| Spawned (ph : phase).

(** Where the calling goroutine stands: at index [i] of the loop, in
    [waitGroup.Wait()], or back with its result. *)
Inductive pc :=
| InLoop (i : nat)
| Waiting
| Returned (r : option Err).

(** What was observed, in order: logger [i] returned [r] from the method,
    the handler was run on the error [e] of logger [i]. *)
Inductive obs :=
| ObsCall (i : nat) (m : method) (r : option Err)
| ObsHandle (i : nat) (e : Err).

(** One call of the composite in flight. *)
Record state := mkState {
  callee : method;
  errToLog : Event;
  poly : PolyLogger;
  world : W;
  slots : list slot;
  main : pc;
  trace : list obs
}.

(** [p.waitGroup.Add(d)] *)
Definition Add (d : Z) (p : PolyLogger) : PolyLogger :=
  mkPolyLogger (Loggers p) (handleLoggerFail p) (waitGroup p + d).

(** The call as it starts. *)
Definition enter (m : method) (ev : Event) (p : PolyLogger) (w : W) : state :=
  mkState m ev p w (replicate (length (Loggers p)) NotReached) (InLoop 0) [].

(** A step of the calling goroutine: one turn of the loop (with
    [waitGroup.Add(1)] and the [go] statement for a logger the call is
    dispatched to), the end of the loop, or the return from [Wait] once
    the counter is 0. *)
Definition stepMain (s : state) : option state :=
  match main s with
  | InLoop i =>
      match Loggers (poly s) !! i with
      | Some lg =>
          if dispatched (callee s) lg then
            Some (mkState (callee s) (errToLog s) (Add 1 (poly s)) (world s)
                    (<[i := Spawned Started]> (slots s)) (InLoop (S i)) (trace s))
          else
            Some (mkState (callee s) (errToLog s) (poly s) (world s)
                    (<[i := Skipped]> (slots s)) (InLoop (S i)) (trace s))
      | None =>
          Some (mkState (callee s) (errToLog s) (poly s) (world s)
                  (slots s) Waiting (trace s))
      end
  | Waiting =>
      if (waitGroup (poly s) =? 0)%Z then
        Some (mkState (callee s) (errToLog s) (poly s) (world s)
                (slots s) (Returned None) (trace s))
      else None
  | Returned _ => None
  end.

(** A step of the goroutine spawned for logger [i], in
    [runLoggerWithFail]: the call of [logFunc]; the test of [err] and of
    the handler, with the call of the handler; the deferred [Add(-1)]. *)
Definition stepGo (i : nat) (s : state) : option state :=
  match slots s !! i, Loggers (poly s) !! i with
  | Some (Spawned Started), Some lg =>
      let '(w, err) := logFunc (callee s) lg (errToLog s) (world s) in
      Some (mkState (callee s) (errToLog s) (poly s) w
              (<[i := Spawned (Called err)]> (slots s)) (main s)
              (trace s ++ [ObsCall i (callee s) err]))
  | Some (Spawned (Called err)), _ =>
      match err, handleLoggerFail (poly s) with
      | Some e, Some handler =>
          Some (mkState (callee s) (errToLog s) (poly s) (handler e (world s))
                  (<[i := Spawned (Handled err)]> (slots s)) (main s)
                  (trace s ++ [ObsHandle i e]))
      | _, _ =>
          Some (mkState (callee s) (errToLog s) (poly s) (world s)
                  (<[i := Spawned (Handled err)]> (slots s)) (main s) (trace s))
      end
  | Some (Spawned (Handled err)), _ =>
      Some (mkState (callee s) (errToLog s) (Add (-1) (poly s)) (world s)
              (<[i := Spawned (Exited err)]> (slots s)) (main s) (trace s))
  | _, _ => None
  end.

(** The goroutines of a call. *)
Inductive thread :=
| Caller
| Go (i : nat).

Definition step (t : thread) (s : state) : option state :=
  match t with
  | Caller => stepMain s
  | Go i => stepGo i s
  end.

(** The call under a schedule: [None] when a scheduled goroutine cannot
    move. *)
Fixpoint run (sched : list thread) (s : state) : option state :=
  match sched with
  | [] => Some s
  | t :: rest =>
      match step t s with
      | Some s' => run rest s'
      | None => None
      end
  end.

(** ** Reading the trace *)

Definition about (i : nat) (o : obs) : bool :=
  match o with
  | ObsCall j _ _ => Nat.eqb i j
  | ObsHandle j _ => Nat.eqb i j
  end.

Definition isHandle (o : obs) : bool :=
  match o with
  | ObsHandle _ _ => true
  | ObsCall _ _ _ => false
  end.

(** What the trace holds about logger [i]. *)
Definition proj (i : nat) (tr : list obs) : list obs := List.filter (about i) tr.

(** The calls of the handler in the trace. *)
Definition handlerCalls (tr : list obs) : list obs := List.filter isHandle tr.

(** ** What holds of a call in flight *)

(** Steps a slot is away from its end. *)
Definition weight (sl : slot) : nat :=
  match sl with
  | NotReached => 4
  | Skipped => 0
  | Spawned Started => 3
  | Spawned (Called _) => 2
  | Spawned (Handled _) => 1
  | Spawned (Exited _) => 0
  end.

(** A goroutine that has not run its [Add(-1)] yet counts for one. *)
Definition live (sl : slot) : nat :=
  match sl with
  | Spawned (Exited _) => 0
  | Spawned _ => 1
  | _ => 0
  end.

Definition total (f : slot -> nat) (l : list slot) : nat := list_sum (map f l).

Definition pcWeight (c : pc) : nat :=
  match c with
  | InLoop _ => 2
  | Waiting => 1
  | Returned _ => 0
  end.

Definition measure (s : state) : nat := pcWeight (main s) + total weight (slots s).

(** The handler's part of what a goroutine leaves in the trace. *)
Definition reported (h : option (Err -> W -> W)) (i : nat) (r : option Err) : list obs :=
  match r, h with
  | Some e, Some _ => [ObsHandle i e]
  | _, _ => []
  end.

(** What the trace holds about logger [i], from its slot. *)
Definition expected (m : method) (h : option (Err -> W -> W)) (i : nat)
    (sl : option slot) : list obs :=
  match sl with
  | Some (Spawned (Called r)) => [ObsCall i m r]
  | Some (Spawned (Handled r)) | Some (Spawned (Exited r)) =>
      ObsCall i m r :: reported h i r
  | _ => []
  end.

(** The loop has dealt with the logger. *)
Definition decided (m : method) (lg : Logger) (sl : slot) : Prop :=
  if dispatched m lg then exists ph, sl = Spawned ph else sl = Skipped.

Definition finished (sl : slot) : Prop :=
  sl = Skipped \/ exists r, sl = Spawned (Exited r).

Record inv (m : method) (p : PolyLogger) (s : state) : Prop := mkInv {
  inv_callee : callee s = m;
  inv_loggers : Loggers (poly s) = Loggers p;
  inv_handler : handleLoggerFail (poly s) = handleLoggerFail p;
  inv_length : length (slots s) = length (Loggers p);
  inv_counter : waitGroup (poly s) = Z.of_nat (total live (slots s));
  inv_slots : forall i lg sl,
    Loggers p !! i = Some lg -> slots s !! i = Some sl ->
    match main s with
    | InLoop k => if i <? k then decided m lg sl else sl = NotReached
    | Waiting => decided m lg sl
    | Returned _ => decided m lg sl /\ finished sl
    end;
  inv_returned : forall r, main s = Returned r -> r = None;
  inv_trace : forall i,
    proj i (trace s) = expected m (handleLoggerFail p) i (slots s !! i)
}.

Lemma total_insert f (l : list slot) : forall i x y,
  l !! i = Some x ->
  total f (<[i := y]> l) + f x = total f l + f y.
Proof.
  unfold total. induction l as [|a l IH]; intros [|i] x y H; simpl in *; try discriminate.
  - injection H as ->. lia.
  - specialize (IH i x y H). lia.
Qed.

Lemma total_replicate f n sl : total f (replicate n sl) = n * f sl.
Proof. unfold total. induction n as [|n IH]; simpl; [reflexivity|]. rewrite IH. lia. Qed.

Lemma total_zero f (l : list slot) i sl :
  total f l = 0 -> l !! i = Some sl -> f sl = 0.
Proof.
  unfold total. revert i. induction l as [|a l IH]; intros [|i] H0 H; simpl in *;
    try discriminate.
  - injection H as ->. lia.
  - apply (IH i); [lia|exact H].
Qed.

Lemma total_positive f (l : list slot) :
  0 < total f l -> exists i sl, l !! i = Some sl /\ 0 < f sl.
Proof.
  unfold total. induction l as [|a l IH]; simpl; [lia|]. intros H.
  destruct (f a) as [|n] eqn:Ha.
  - destruct IH as (i & sl & Hl & Hf); [lia|]. exists (S i), sl. auto.
  - exists 0, a. split; [reflexivity|lia].
Qed.

Lemma proj_app i tr tr' : proj i (tr ++ tr') = proj i tr ++ proj i tr'.
Proof. unfold proj. apply List.filter_app. Qed.

Lemma about_refl i m r : about i (ObsCall i m r) = true.
Proof. simpl. apply Nat.eqb_refl. Qed.

Lemma lookup_decided (m : method) (p : PolyLogger) (s : state) i sl :
  inv m p s -> slots s !! i = Some sl -> exists lg, Loggers p !! i = Some lg.
Proof.
  intros Hi Hs. apply lookup_lt_Some in Hs. rewrite (inv_length _ _ _ Hi) in Hs.
  apply lookup_lt_is_Some_2 in Hs. destruct Hs as [lg Hlg]. eauto.
Qed.

Lemma decided_spawned m lg ph ph' :
  decided m lg (Spawned ph) -> decided m lg (Spawned ph').
Proof. unfold decided. destruct (dispatched m lg); [eauto|discriminate]. Qed.

(** A goroutine that moves on keeps the invariant, when what it adds to
    the trace is what its new phase expects. *)
Lemma inv_advance m p s i ph ph' w' pl' evs :
  inv m p s ->
  slots s !! i = Some (Spawned ph) ->
  live (Spawned ph) = 1 ->
  Loggers pl' = Loggers (poly s) ->
  handleLoggerFail pl' = handleLoggerFail (poly s) ->
  (waitGroup pl' + 1 = waitGroup (poly s) + Z.of_nat (live (Spawned ph')))%Z ->
  (forall j, j <> i -> proj j evs = []) ->
  expected m (handleLoggerFail p) i (Some (Spawned ph'))
  = expected m (handleLoggerFail p) i (Some (Spawned ph)) ++ proj i evs ->
  inv m p (mkState (callee s) (errToLog s) pl' w'
             (<[i := Spawned ph']> (slots s)) (main s) (trace s ++ evs)).
Proof.
  intros Hi Hs Hlive Hl Hh Hwg Hother Hexp.
  pose proof (lookup_lt_Some _ _ _ Hs) as Hlt.
  constructor; simpl.
  - apply Hi.
  - rewrite Hl. apply Hi.
  - rewrite Hh. apply Hi.
  - rewrite length_insert. apply Hi.
  - pose proof (total_insert live (slots s) i _ (Spawned ph') Hs) as Ht.
    rewrite Hlive in Ht. pose proof (inv_counter _ _ _ Hi) as Hc. lia.
  - intros j lg sl Hlg Hsl. destruct (decide (j = i)) as [->|Hne].
    + rewrite list_lookup_insert_eq in Hsl by exact Hlt. injection Hsl as <-.
      pose proof (inv_slots _ _ _ Hi i lg _ Hlg Hs) as Hold.
      destruct (main s) as [k| |r].
      * destruct (i <? k); [eapply decided_spawned; eauto|discriminate].
      * eapply decided_spawned; eauto.
      * destruct Hold as (_ & [Hf|[r' Hf]]); [discriminate|].
        injection Hf as ->. simpl in Hlive. discriminate.
    + rewrite list_lookup_insert_ne in Hsl by auto.
      apply (inv_slots _ _ _ Hi j lg sl Hlg Hsl).
  - apply Hi.
  - intros j. rewrite proj_app. destruct (decide (j = i)) as [->|Hne].
    + rewrite list_lookup_insert_eq by exact Hlt.
      rewrite Hexp, <- Hs. f_equal. apply Hi.
    + rewrite list_lookup_insert_ne by auto. rewrite Hother by exact Hne.
      rewrite app_nil_r. apply Hi.
Qed.

Lemma inv_enter m ev p w :
  waitGroup p = 0%Z -> inv m p (enter m ev p w).
Proof.
  intros Hwg. constructor; simpl; auto.
  - apply length_replicate.
  - rewrite total_replicate, Hwg. simpl. lia.
  - intros i lg sl _ Hsl. apply lookup_replicate in Hsl as [-> _]. reflexivity.
  - intros r H. discriminate H.
  - intros i. destruct (replicate _ _ !! i) as [sl|] eqn:E; [|reflexivity].
    apply lookup_replicate in E as [-> _]. reflexivity.
Qed.

(** A step of the calling goroutine keeps the invariant and brings the
    call nearer to its end. *)
Lemma stepMain_inv m p s s' :
  inv m p s -> stepMain s = Some s' -> inv m p s' /\ measure s' < measure s.
Proof.
  intros Hi. unfold stepMain, measure. destruct (main s) as [k| |r] eqn:Hm.
  - destruct (Loggers (poly s) !! k) as [lg|] eqn:Hlg.
    + assert (Hlg' : Loggers p !! k = Some lg) by (rewrite <- (inv_loggers _ _ _ Hi); exact Hlg).
      assert (Hk : slots s !! k = Some NotReached).
      { pose proof (lookup_lt_Some _ _ _ Hlg') as Hlt.
        rewrite <- (inv_length _ _ _ Hi) in Hlt.
        apply lookup_lt_is_Some_2 in Hlt. destruct Hlt as [sl Hsl].
        pose proof (inv_slots _ _ _ Hi k lg sl Hlg' Hsl) as Hold.
        rewrite Hm, Nat.ltb_irrefl in Hold. subst sl. exact Hsl. }
      pose proof (lookup_lt_Some _ _ _ Hk) as Hlt.
      assert (Hslots : forall y, decided m lg y -> forall j lg' sl,
                 Loggers p !! j = Some lg' -> <[k := y]> (slots s) !! j = Some sl ->
                 if j <? S k then decided m lg' sl else sl = NotReached).
      { intros y Hy j lg' sl Hj Hsl. destruct (decide (j = k)) as [->|Hne].
        - rewrite list_lookup_insert_eq in Hsl by exact Hlt. injection Hsl as <-.
          rewrite Hlg' in Hj. injection Hj as <-.
          destruct (k <? S k) eqn:E; [exact Hy|]. apply Nat.ltb_ge in E. lia.
        - rewrite list_lookup_insert_ne in Hsl by auto.
          pose proof (inv_slots _ _ _ Hi j lg' sl Hj Hsl) as Hold. rewrite Hm in Hold.
          destruct (j <? k) eqn:E1, (j <? S k) eqn:E2; auto.
          + apply Nat.ltb_lt in E1. apply Nat.ltb_ge in E2. lia.
          + apply Nat.ltb_ge in E1. apply Nat.ltb_lt in E2. lia. }
      assert (Htrace : forall y, expected m (handleLoggerFail p) k (Some y) = [] ->
                 forall j, proj j (trace s)
                           = expected m (handleLoggerFail p) j (<[k := y]> (slots s) !! j)).
      { intros y Hy j. destruct (decide (j = k)) as [->|Hne].
        - rewrite list_lookup_insert_eq by exact Hlt. rewrite Hy.
          rewrite (inv_trace _ _ _ Hi k), Hk. reflexivity.
        - rewrite list_lookup_insert_ne by auto. apply Hi. }
      destruct (dispatched (callee s) lg) eqn:Hd; intros H; injection H as <-; simpl.
      * split;
          [|pose proof (total_insert weight (slots s) k _ (Spawned Started) Hk) as Hw;
            simpl in Hw; lia].
        constructor; simpl; try apply Hi.
        -- rewrite length_insert. apply Hi.
        -- pose proof (total_insert live (slots s) k _ (Spawned Started) Hk) as Ht.
           simpl in Ht. pose proof (inv_counter _ _ _ Hi). lia.
        -- apply Hslots. unfold decided. rewrite <- (inv_callee _ _ _ Hi), Hd. eauto.
        -- intros r H. discriminate H.
        -- apply Htrace. reflexivity.
      * split;
          [|pose proof (total_insert weight (slots s) k _ Skipped Hk) as Hw;
            simpl in Hw; lia].
        constructor; simpl; try apply Hi.
        -- rewrite length_insert. apply Hi.
        -- pose proof (total_insert live (slots s) k _ Skipped Hk) as Ht.
           simpl in Ht. pose proof (inv_counter _ _ _ Hi). lia.
        -- apply Hslots. unfold decided. rewrite <- (inv_callee _ _ _ Hi), Hd. reflexivity.
        -- intros r H. discriminate H.
        -- apply Htrace. reflexivity.
    + intros H. injection H as <-. simpl. split; [|lia].
      constructor; simpl; try apply Hi.
      * intros j lg sl Hj Hsl.
        pose proof (inv_slots _ _ _ Hi j lg sl Hj Hsl) as Hold. rewrite Hm in Hold.
        apply lookup_lt_Some in Hj. rewrite <- (inv_loggers _ _ _ Hi) in Hj.
        apply lookup_ge_None in Hlg.
        destruct (j <? k) eqn:E; [exact Hold|]. apply Nat.ltb_ge in E. lia.
      * intros r H. discriminate H.
  - destruct (waitGroup (poly s) =? 0)%Z eqn:Hz; [|discriminate].
    intros H. injection H as <-. simpl. split; [|lia].
    apply Z.eqb_eq in Hz. rewrite (inv_counter _ _ _ Hi) in Hz.
    constructor; simpl; try apply Hi.
    + intros j lg sl Hj Hsl.
      pose proof (inv_slots _ _ _ Hi j lg sl Hj Hsl) as Hold. rewrite Hm in Hold.
      split; [exact Hold|].
      assert (Hl : live sl = 0) by (apply (total_zero live (slots s) j); [lia|exact Hsl]).
      unfold decided in Hold. unfold finished.
      destruct sl as [| |[|err|err|err]]; simpl in Hl; try discriminate; eauto.
      destruct (dispatched m lg); [destruct Hold as [ph Hph]|]; discriminate.
    + intros r H. injection H as <-. reflexivity.
  - discriminate.
Qed.

Lemma proj_other i j (o : obs) : about i o = true -> j <> i -> proj j [o] = [].
Proof.
  unfold proj. simpl. intros Ho Hne.
  destruct o as [k m' r|k e]; simpl in *; apply Nat.eqb_eq in Ho; subst k;
    destruct (Nat.eqb_spec j i); [contradiction|reflexivity|contradiction|reflexivity].
Qed.

Lemma proj_same i (o : obs) : about i o = true -> proj i [o] = [o].
Proof. unfold proj. simpl. intros ->. reflexivity. Qed.

(** A step of a spawned goroutine keeps the invariant and brings the call
    nearer to its end. *)
Lemma stepGo_inv m p i s s' :
  inv m p s -> stepGo i s = Some s' -> inv m p s' /\ measure s' < measure s.
Proof.
  intros Hi. unfold stepGo, measure.
  pose proof (inv_callee _ _ _ Hi) as Hc.
  pose proof (inv_handler _ _ _ Hi) as Hh.
  destruct (slots s !! i) as [[| |[|err|err|err]]|] eqn:Hs; try discriminate.
  - destruct (Loggers (poly s) !! i) as [lg|]; [|discriminate].
    destruct (logFunc (callee s) lg (errToLog s) (world s)) as [w err].
    intros H. injection H as <-. simpl. split.
    + apply (inv_advance m p s i Started (Called err)); auto.
      * intros j Hne. apply (proj_other i); [apply about_refl|exact Hne].
      * rewrite proj_same by apply about_refl. rewrite Hc. reflexivity.
    + pose proof (total_insert weight (slots s) i _ (Spawned (Called err)) Hs) as Hw.
      simpl in Hw. lia.
  - assert (Hquiet :
        inv m p (mkState (callee s) (errToLog s) (poly s) (world s)
                   (<[i := Spawned (Handled err)]> (slots s)) (main s) (trace s))
        <-> inv m p (mkState (callee s) (errToLog s) (poly s) (world s)
                   (<[i := Spawned (Handled err)]> (slots s)) (main s) (trace s ++ []))).
    { rewrite app_nil_r. reflexivity. }
    assert (Hw : pcWeight (main s)
                 + total weight (<[i := Spawned (Handled err)]> (slots s))
                 < pcWeight (main s) + total weight (slots s)).
    { pose proof (total_insert weight (slots s) i _ (Spawned (Handled err)) Hs) as Hw.
      simpl in Hw. lia. }
    destruct err as [e|]; [destruct (handleLoggerFail (poly s)) as [handler|] eqn:Hp|];
      intros H; injection H as <-; simpl; (split; [|exact Hw]).
    + apply (inv_advance m p s i (Called (Some e)) (Handled (Some e))); auto.
      * intros j Hne. apply (proj_other i); [simpl; apply Nat.eqb_refl|exact Hne].
      * rewrite proj_same by (simpl; apply Nat.eqb_refl).
        simpl. rewrite <- Hh. reflexivity.
    + apply Hquiet.
      apply (inv_advance m p s i (Called (Some e)) (Handled (Some e))); auto.
      simpl. rewrite <- Hh. reflexivity.
    + apply Hquiet.
      apply (inv_advance m p s i (Called None) (Handled None)); auto.
  - intros H. injection H as <-. simpl. split.
    + rewrite <- (app_nil_r (trace s)).
      apply (inv_advance m p s i (Handled err) (Exited err)); auto.
      * simpl. lia.
      * simpl. rewrite app_nil_r. reflexivity.
    + pose proof (total_insert weight (slots s) i _ (Spawned (Exited err)) Hs) as Hw.
      simpl in Hw. lia.
Qed.

Lemma step_inv m p t s s' :
  inv m p s -> step t s = Some s' -> inv m p s' /\ measure s' < measure s.
Proof. destruct t as [|i]; simpl; [apply stepMain_inv|apply stepGo_inv]. Qed.

(** Under any schedule the invariant is kept, and the schedule is no
    longer than the measure allows. *)
Lemma run_inv m p sched : forall s s',
  inv m p s -> run sched s = Some s' ->
  inv m p s' /\ length sched + measure s' <= measure s.
Proof.
  induction sched as [|t rest IH]; intros s s' Hi; simpl.
  - intros H. injection H as <-. split; [exact Hi|lia].
  - destruct (step t s) as [s1|] eqn:Hst; [|discriminate]. intros Hr.
    destruct (step_inv m p t s s1 Hi Hst) as (Hi1 & Hm).
    destruct (IH s1 s' Hi1 Hr) as (Hi' & Hlen). split; [exact Hi'|lia].
Qed.

(** Until the call has returned, some goroutine can move. *)
Lemma progress m p s :
  inv m p s -> (forall r, main s <> Returned r) -> exists t s', step t s = Some s'.
Proof.
  intros Hi Hnot. destruct (main s) as [k| |r] eqn:Hm.
  - exists Caller. simpl. unfold stepMain. rewrite Hm.
    destruct (Loggers (poly s) !! k) as [lg|]; [destruct (dispatched (callee s) lg)|]; eauto.
  - destruct (waitGroup (poly s) =? 0)%Z eqn:Hz.
    + exists Caller. simpl. unfold stepMain. rewrite Hm, Hz. eauto.
    + apply Z.eqb_neq in Hz. rewrite (inv_counter _ _ _ Hi) in Hz.
      destruct (total_positive live (slots s)) as (i & sl & Hsl & Hl); [lia|].
      exists (Go i). simpl. unfold stepGo. rewrite Hsl.
      destruct (lookup_decided m p s i sl Hi Hsl) as [lg Hlg].
      rewrite (inv_loggers _ _ _ Hi), Hlg.
      destruct sl as [| |[|err|err|err]]; simpl in Hl; try lia.
      * destruct (logFunc (callee s) lg (errToLog s) (world s)). eauto.
      * destruct err, (handleLoggerFail (poly s)); eauto.
      * eauto.
  - exfalso. apply (Hnot r). reflexivity.
Qed.

(** From wherever it stands, the call can be run to its return. *)
Lemma completes m p : forall n s,
  measure s <= n -> inv m p s ->
  exists sched s', run sched s = Some s' /\ main s' = Returned None.
Proof.
  induction n as [|n IH]; intros s Hn Hi.
  - destruct (main s) as [k| |r] eqn:Hm.
    + unfold measure in Hn. rewrite Hm in Hn. simpl in Hn. lia.
    + unfold measure in Hn. rewrite Hm in Hn. simpl in Hn. lia.
    + exists [], s. split; [reflexivity|].
      rewrite Hm. f_equal. apply (inv_returned _ _ _ Hi r Hm).
  - destruct (main s) as [k| |r] eqn:Hm.
    1,2: destruct (progress m p s Hi) as (t & s1 & Hst); [rewrite Hm; discriminate|];
      destruct (step_inv m p t s s1 Hi Hst) as (Hi1 & Hlt);
      destruct (IH s1) as (sched & s' & Hr & Hret); [lia|exact Hi1|];
      exists (t :: sched), s'; simpl; rewrite Hst; auto.
    exists [], s. split; [reflexivity|].
    rewrite Hm. f_equal. apply (inv_returned _ _ _ Hi r Hm).
Qed.

Lemma proj_In i (o : obs) tr : In o (proj i tr) <-> In o tr /\ about i o = true.
Proof. unfold proj. apply List.filter_In. Qed.

(** Once the call has returned, each logger was skipped, with nothing
    about it in the trace, or its goroutine is gone, with its one call in
    the trace, followed by the report of its error to the handler. *)
Lemma returned_slot m p s r i sl :
  inv m p s -> main s = Returned r -> slots s !! i = Some sl ->
  exists lg, Loggers p !! i = Some lg
    /\ if dispatched m lg
       then exists ri, sl = Spawned (Exited ri)
              /\ proj i (trace s)
                 = ObsCall i m ri :: reported (handleLoggerFail p) i ri
       else sl = Skipped /\ proj i (trace s) = [].
Proof.
  intros Hi Hm Hsl. destruct (lookup_decided m p s i sl Hi Hsl) as [lg Hlg].
  exists lg. split; [exact Hlg|].
  pose proof (inv_slots _ _ _ Hi i lg sl Hlg Hsl) as Hold. rewrite Hm in Hold.
  destruct Hold as (Hd & Hf). pose proof (inv_trace _ _ _ Hi i) as Ht.
  rewrite Hsl in Ht. unfold decided in Hd. destruct (dispatched m lg).
  - destruct Hd as [ph ->]. destruct Hf as [Hf|[ri Hf]]; [discriminate|].
    injection Hf as ->. exists ri. split; [reflexivity|exact Ht].
  - subst sl. split; [reflexivity|exact Ht].
Qed.

Lemma filter_within (P Q : obs -> bool) (tr : list obs) :
  (forall o, In o tr -> P o = true -> Q o = true) ->
  List.filter P (List.filter Q tr) = List.filter P tr.
Proof.
  induction tr as [|o tr IH]; intros H; simpl; [reflexivity|].
  destruct (Q o) eqn:HQ; simpl.
  - rewrite IH; [reflexivity|]. intros o' Hin. apply H. right. exact Hin.
  - destruct (P o) eqn:HP.
    + rewrite (H o) in HQ; [discriminate|left; reflexivity|exact HP].
    + apply IH. intros o' Hin. apply H. right. exact Hin.
Qed.

(** ** The trace against the world *)

(** What one observation did to the world: a call is the logger's own
    method of that name, run on the event and the world as it stood,
    returning what the trace holds; a report is the handler run on the
    error. *)
Definition effect (p : PolyLogger) (ev : Event) (o : obs) (w w' : W) : Prop :=
  match o with
  | ObsCall i m r =>
      exists lg,
        Loggers p !! i = Some lg
        /\ match m with
           | MLog => Log lg ev w
           | MLogNoStack => LogNoStack lg ev w
           | MLogJson => LogJson lg ev w
           end = (w', r)
  | ObsHandle i e =>
      exists handler, handleLoggerFail p = Some handler /\ w' = handler e w
  end.

(** The observations of [tr], one after the other, lead from world [w] to
    world [w']. *)
Fixpoint replays (p : PolyLogger) (ev : Event) (tr : list obs) (w w' : W) : Prop :=
  match tr with
  | [] => w' = w
  | o :: rest => exists w1, effect p ev o w w1 /\ replays p ev rest w1 w'
  end.

Lemma replays_snoc p ev tr : forall w w1 w2 o,
  replays p ev tr w w1 -> effect p ev o w1 w2 -> replays p ev (tr ++ [o]) w w2.
Proof.
  induction tr as [|o' tr IH]; intros w w1 w2 o Hr He; simpl in *.
  - subst w1. exists w2. auto.
  - destruct Hr as (w' & He' & Hr). exists w'. split; [exact He'|]. eapply IH; eauto.
Qed.

Lemma replays_split p ev tr1 : forall o tr2 w w',
  replays p ev (tr1 ++ o :: tr2) w w' ->
  exists w1 w2,
    replays p ev tr1 w w1 /\ effect p ev o w1 w2 /\ replays p ev tr2 w2 w'.
Proof.
  induction tr1 as [|o' tr1 IH]; intros o tr2 w w' Hr; simpl in *.
  - destruct Hr as (w2 & He & Hr). exists w, w2. auto.
  - destruct Hr as (wa & He' & Hr). destruct (IH _ _ _ _ Hr) as (w1 & w2 & H1 & He & H2).
    exists w1, w2. split; [exists wa; auto|auto].
Qed.

(** A call in a trace that replays was the logger's method run on the
    world the observations before it had made. *)
Lemma call_was_made p ev tr w w' i m r lg :
  replays p ev tr w w' ->
  In (ObsCall i m r) tr ->
  Loggers p !! i = Some lg ->
  exists tr1 tr2 w1 w2,
    tr = tr1 ++ ObsCall i m r :: tr2
    /\ replays p ev tr1 w w1
    /\ match m with
       | MLog => Log lg ev w1
       | MLogNoStack => LogNoStack lg ev w1
       | MLogJson => LogJson lg ev w1
       end = (w2, r)
    /\ replays p ev tr2 w2 w'.
Proof.
  intros Hr Hin Hlg. apply in_split in Hin. destruct Hin as (tr1 & tr2 & ->).
  destruct (replays_split _ _ _ _ _ _ _ Hr) as (w1 & w2 & H1 & He & H2).
  simpl in He. destruct He as (lg' & Hlg' & He). rewrite Hlg in Hlg'. injection Hlg' as <-.
  exists tr1, tr2, w1, w2. auto.
Qed.

(** A step changes the world by what it adds to the trace, and by nothing
    else. *)
Lemma step_replays m p ev w0 t s s' :
  inv m p s ->
  errToLog s = ev ->
  replays p ev (trace s) w0 (world s) ->
  step t s = Some s' ->
  errToLog s' = ev /\ replays p ev (trace s') w0 (world s').
Proof.
  intros Hi Hev Hr. destruct t as [|i]; simpl.
  - unfold stepMain. destruct (main s) as [k| |r].
    + destruct (Loggers (poly s) !! k) as [lg|]; [destruct (dispatched (callee s) lg)|];
        intros H; injection H as <-; simpl; auto.
    + destruct (waitGroup (poly s) =? 0)%Z; [|discriminate].
      intros H. injection H as <-. simpl. auto.
    + discriminate.
  - unfold stepGo.
    destruct (slots s !! i) as [[| |[|err|err|err]]|]; try discriminate.
    + destruct (Loggers (poly s) !! i) as [lg|] eqn:Hlg; [|discriminate].
      destruct (logFunc (callee s) lg (errToLog s) (world s)) as [w' err] eqn:Hf.
      intros H. injection H as <-. simpl. split; [exact Hev|].
      apply (replays_snoc p ev (trace s) w0 (world s)); [exact Hr|].
      simpl. exists lg. split; [rewrite <- (inv_loggers _ _ _ Hi); exact Hlg|].
      rewrite <- Hf, Hev. destruct (callee s); reflexivity.
    + destruct err as [e|]; [destruct (handleLoggerFail (poly s)) as [handler|] eqn:Hh|];
        intros H; injection H as <-; simpl; (split; [exact Hev|]); try exact Hr.
      apply (replays_snoc p ev (trace s) w0 (world s)); [exact Hr|].
      simpl. exists handler. split; [rewrite <- (inv_handler _ _ _ Hi); exact Hh|reflexivity].
    + intros H. injection H as <-. simpl. auto.
Qed.

Lemma run_replays m p ev w0 sched : forall s s',
  inv m p s ->
  errToLog s = ev ->
  replays p ev (trace s) w0 (world s) ->
  run sched s = Some s' ->
  replays p ev (trace s') w0 (world s').
Proof.
  induction sched as [|t rest IH]; intros s s' Hi Hev Hr; simpl.
  - intros H. injection H as <-. exact Hr.
  - destruct (step t s) as [s1|] eqn:Hst; [|discriminate].
    destruct (step_inv m p t s s1 Hi Hst) as (Hi1 & _).
    destruct (step_replays m p ev w0 t s s1 Hi Hev Hr Hst) as (Hev1 & Hr1).
    apply IH; assumption.
Qed.

(** From the start of a call, the world is what the trace made of it. *)
Lemma entered_replays m ev p w sched s :
  waitGroup p = 0%Z ->
  run sched (enter m ev p w) = Some s ->
  replays p ev (trace s) w (world s).
Proof.
  intros Hwg Hrun.
  apply (run_replays m p ev w sched (enter m ev p w) s); auto.
  - apply inv_enter. exact Hwg.
  - reflexivity.
Qed.

(** ** The composite's log calls *)

(** C1: whatever the loggers, the method, the event and the schedule, and
    whatever the loggers return: the call in flight has made no more steps
    than [2 + 4 * len(Loggers)]; if it has returned, it returned nil; if it
    has not, some goroutine can move; and it can be run on to its return,
    which is nil. *)
Theorem composite_returns_nil (m : method) (ev : Event) (p : PolyLogger) (w : W)
    (sched : list thread) (s : state) :
  waitGroup p = 0%Z ->
  run sched (enter m ev p w) = Some s ->
  (forall r, main s = Returned r -> r = None)
  /\ length sched <= 2 + 4 * length (Loggers p)
  /\ ((forall r, main s <> Returned r) -> exists t s', step t s = Some s')
  /\ exists rest s', run rest s = Some s' /\ main s' = Returned None.
Proof.
  intros Hwg Hrun.
  destruct (run_inv m p sched _ s (inv_enter m ev p w Hwg) Hrun) as (Hi & Hlen).
  split; [apply (inv_returned _ _ _ Hi)|]. split.
  - unfold measure at 2 in Hlen. simpl in Hlen. rewrite total_replicate in Hlen.
    simpl in Hlen. lia.
  - split; [apply (progress m p s Hi)|]. apply (completes m p (measure s) s); auto.
Qed.

(** C2: in a [LogNoStack] or [LogJson] call of the composite, under any
    schedule: the world is changed by the calls and reports of the trace and
    by nothing else; a logger that is no [RobustLogger] is never called and
    never reported to the handler (nothing in the trace is about it, no
    goroutine was spawned for it); and once the call has returned each
    robust logger has received the one call of that method: its own
    [LogNoStack], or [LogJson], was run on the event and the world as it
    then stood, and what it returned is what the trace holds and what is
    reported to the handler, if it is an error. *)
Theorem robust_only_dispatch (m : method) (ev : Event) (p : PolyLogger) (w : W)
    (sched : list thread) (s : state) (i : nat) (lg : Logger) :
  m <> MLog ->
  waitGroup p = 0%Z ->
  run sched (enter m ev p w) = Some s ->
  Loggers p !! i = Some lg ->
  replays p ev (trace s) w (world s)
  /\ (isRobust lg = false ->
      proj i (trace s) = []
      /\ (slots s !! i = Some NotReached \/ slots s !! i = Some Skipped))
  /\ (isRobust lg = true ->
      forall r, main s = Returned r ->
      exists ri tr1 tr2 w1 w2,
        proj i (trace s) = ObsCall i m ri :: reported (handleLoggerFail p) i ri
        /\ trace s = tr1 ++ ObsCall i m ri :: tr2
        /\ replays p ev tr1 w w1
        /\ match m with
           | MLog => Log lg ev w1
           | MLogNoStack => LogNoStack lg ev w1
           | MLogJson => LogJson lg ev w1
           end = (w2, ri)
        /\ replays p ev tr2 w2 (world s)).
Proof.
  intros Hm Hwg Hrun Hlg.
  destruct (run_inv m p sched _ s (inv_enter m ev p w Hwg) Hrun) as (Hi & _).
  pose proof (entered_replays m ev p w sched s Hwg Hrun) as Hrep.
  assert (Hd : dispatched m lg = isRobust lg) by (destruct m; [contradiction| |]; reflexivity).
  pose proof (lookup_lt_Some _ _ _ Hlg) as Hlt.
  rewrite <- (inv_length _ _ _ Hi) in Hlt.
  apply lookup_lt_is_Some_2 in Hlt. destruct Hlt as [sl Hsl].
  split; [exact Hrep|]. split.
  - intros Hr. rewrite Hr in Hd.
    pose proof (inv_slots _ _ _ Hi i lg sl Hlg Hsl) as Hold.
    pose proof (inv_trace _ _ _ Hi i) as Ht. rewrite Hsl in Ht.
    assert (Hcase : sl = NotReached \/ sl = Skipped).
    { unfold decided in Hold. rewrite Hd in Hold.
      destruct (main s) as [k| |r]; [destruct (i <? k)| |destruct Hold]; auto. }
    destruct Hcase as [-> | ->]; rewrite Hsl; auto.
  - intros Hr r Hret. rewrite Hr in Hd.
    destruct (returned_slot m p s r i sl Hi Hret Hsl) as (lg' & Hlg' & H).
    rewrite Hlg in Hlg'. injection Hlg' as <-. rewrite Hd in H.
    destruct H as (ri & _ & Ht).
    assert (Hin : In (ObsCall i m ri) (trace s)).
    { apply (proj_In i). rewrite Ht. left. reflexivity. }
    destruct (call_was_made p ev (trace s) w (world s) i m ri lg Hrep Hin Hlg)
      as (tr1 & tr2 & w1 & w2 & Htr & H1 & Hcall & H2).
    exists ri, tr1, tr2, w1, w2. auto.
Qed.


(** ** The counter, the handler and the join *)

Lemma total_bounded f (l : list slot) :
  (forall sl, f sl <= 1) -> total f l <= length l.
Proof.
  intros Hf. unfold total. induction l as [|a l IH]; simpl; [lia|].
  specialize (Hf a). lia.
Qed.

Lemma total_all_zero f (l : list slot) :
  (forall i sl, l !! i = Some sl -> f sl = 0) -> total f l = 0.
Proof.
  unfold total. induction l as [|a l IH]; intros H; simpl; [reflexivity|].
  rewrite (H 0 a eq_refl), IH; [reflexivity|].
  intros i sl Hl. apply (H (S i) sl). exact Hl.
Qed.

Lemma filter_none (P : obs -> bool) (tr : list obs) :
  (forall o, In o tr -> P o = false) -> List.filter P tr = [].
Proof.
  induction tr as [|o tr IH]; intros H; simpl; [reflexivity|].
  rewrite (H o) by (left; reflexivity). apply IH. intros o' Hin. apply H. right. exact Hin.
Qed.

(** What the trace holds about a logger is a call, then at most the report
    of the error that call returned. *)
Lemma proj_shape m p s i :
  inv m p s ->
  proj i (trace s) = []
  \/ (exists r, proj i (trace s) = [ObsCall i m r])
  \/ (exists r, proj i (trace s) = ObsCall i m r :: reported (handleLoggerFail p) i r).
Proof.
  intros Hi. rewrite (inv_trace _ _ _ Hi i).
  destruct (slots s !! i) as [[| |[|r|r|r]]|]; simpl; eauto.
Qed.

(** X8: while a call of the composite is in flight, whatever the schedule,
    the counter of the wait group is at least 0 (so [Add] never panics) and
    at most the number of loggers, and the loggers and the handler are the
    ones the composite was made with; when the call has returned the counter
    is 0 again and the composite is as it was before the call, ready for the
    next one. *)
Theorem waitGroup_back_to_zero (m : method) (ev : Event) (p : PolyLogger) (w : W)
    (sched : list thread) (s : state) :
  waitGroup p = 0%Z ->
  run sched (enter m ev p w) = Some s ->
  (0 <= waitGroup (poly s) <= Z.of_nat (length (Loggers p)))%Z
  /\ Loggers (poly s) = Loggers p
  /\ handleLoggerFail (poly s) = handleLoggerFail p
  /\ (forall r, main s = Returned r -> poly s = p).
Proof.
  intros Hwg Hrun.
  destruct (run_inv m p sched _ s (inv_enter m ev p w Hwg) Hrun) as (Hi & _).
  pose proof (inv_counter _ _ _ Hi) as Hc.
  pose proof (inv_loggers _ _ _ Hi) as Hl.
  pose proof (inv_handler _ _ _ Hi) as Hh.
  split; [|split; [exact Hl|split; [exact Hh|]]].
  - assert (Hb : total live (slots s) <= length (slots s)).
    { apply total_bounded. intros [| |[|r|r|r]]; simpl; lia. }
    rewrite (inv_length _ _ _ Hi) in Hb. lia.
  - intros r Hret.
    assert (Hz : total live (slots s) = 0).
    { apply total_all_zero. intros i sl Hsl.
      destruct (returned_slot m p s r i sl Hi Hret Hsl) as (lg & _ & H).
      destruct (dispatched m lg).
      - destruct H as (ri & -> & _). reflexivity.
      - destruct H as (-> & _). reflexivity. }
    rewrite Hz in Hc. destruct (poly s) as [ls h c], p as [ls' h' c'].
    simpl in *. subst. reflexivity.
Qed.


(** X10: in a call of a composite whose failure handler is nil, whatever
    the method, the schedule and what the loggers return, no handler is ever
    run: the errors of the loggers are dropped. *)
Theorem nil_handler_never_runs (m : method) (ev : Event) (p : PolyLogger) (w : W)
    (sched : list thread) (s : state) :
  handleLoggerFail p = None ->
  waitGroup p = 0%Z ->
  run sched (enter m ev p w) = Some s ->
  handlerCalls (trace s) = [].
Proof.
  intros Hh Hwg Hrun.
  destruct (run_inv m p sched _ s (inv_enter m ev p w Hwg) Hrun) as (Hi & _).
  unfold handlerCalls. apply filter_none. intros o Hin.
  destruct o as [i m' r|i e]; [reflexivity|]. exfalso.
  assert (Hp : In (ObsHandle i e) (proj i (trace s))).
  { apply proj_In. split; [exact Hin|simpl; apply Nat.eqb_refl]. }
  destruct (proj_shape m p s i Hi) as [H|[[r H]|[r H]]]; rewrite H in Hp.
  - contradiction.
  - destruct Hp as [Hp|[]]. discriminate Hp.
  - destruct Hp as [Hp|Hp]; [discriminate Hp|].
    rewrite Hh in Hp. destruct r; contradiction.
Qed.

(** X11: when a [Log] call of the composite has returned, whatever the
    schedule and however many loggers failed, every logger, robust or not,
    has received exactly one [Log] call and its goroutine is gone: its own
    [Log] was run on the event and the world as it then stood, and what it
    returned is what the trace holds; the trace holds nothing else than
    these calls and their reports, and the world is changed by them alone. *)
Theorem Log_reaches_every_logger (ev : Event) (p : PolyLogger) (w : W)
    (sched : list thread) (s : state) (r : option Err) :
  waitGroup p = 0%Z ->
  run sched (enter MLog ev p w) = Some s ->
  main s = Returned r ->
  (forall i lg, Loggers p !! i = Some lg ->
     exists ri tr1 tr2 w1 w2,
       proj i (trace s) = ObsCall i MLog ri :: reported (handleLoggerFail p) i ri
       /\ slots s !! i = Some (Spawned (Exited ri))
       /\ trace s = tr1 ++ ObsCall i MLog ri :: tr2
       /\ replays p ev tr1 w w1
       /\ Log lg ev w1 = (w2, ri)
       /\ replays p ev tr2 w2 (world s))
  /\ (forall i, length (Loggers p) <= i -> proj i (trace s) = [])
  /\ replays p ev (trace s) w (world s).
Proof.
  intros Hwg Hrun Hret.
  destruct (run_inv MLog p sched _ s (inv_enter MLog ev p w Hwg) Hrun) as (Hi & _).
  pose proof (entered_replays MLog ev p w sched s Hwg Hrun) as Hrep.
  split; [|split; [|exact Hrep]].
  - intros i lg Hlg. pose proof (lookup_lt_Some _ _ _ Hlg) as Hlt.
    rewrite <- (inv_length _ _ _ Hi) in Hlt.
    apply lookup_lt_is_Some_2 in Hlt. destruct Hlt as [sl Hsl].
    destruct (returned_slot MLog p s r i sl Hi Hret Hsl) as (lg' & _ & H).
    simpl in H. destruct H as (ri & -> & Ht).
    assert (Hin : In (ObsCall i MLog ri) (trace s)).
    { apply (proj_In i). rewrite Ht. left. reflexivity. }
    destruct (call_was_made p ev (trace s) w (world s) i MLog ri lg Hrep Hin Hlg)
      as (tr1 & tr2 & w1 & w2 & Htr & H1 & Hcall & H2).
    exists ri, tr1, tr2, w1, w2. auto 10.
  - intros i Hge. rewrite (inv_trace _ _ _ Hi i).
    rewrite <- (inv_length _ _ _ Hi) in Hge. apply lookup_ge_None in Hge.
    rewrite Hge. reflexivity.
Qed.

(** ** [PolyLogger.Close] *)

(** [logger.Close()] of a logger of the composite, one step on the world. *)
Variable loggerClose : Logger -> W -> W.

(** What became of the i-th logger in the loop of [Close]: not reached yet,
    its goroutine spawned by [go logger.Close()], or closed. *)
Inductive closing :=
| Unreached
| Closing
| Closed.

(** Where the goroutine that called [Close] stands. *)
Inductive closePc :=
| CloseLoop (i : nat)
| CloseReturned.

(** One call of [Close] in flight; [closedOrder] is ghost: the loggers
    whose [Close] has run, in the order it ran. *)
Record closeState := mkCloseState {
  closePoly : PolyLogger;
  closeWorld : W;
  closeSlots : list closing;
  closeMain : closePc;
  closedOrder : list nat
}.

Definition enterClose (p : PolyLogger) (w : W) : closeState :=
  mkCloseState p w (replicate (length (Loggers p)) Unreached) (CloseLoop 0) [].

(** A step of the goroutine that called [Close]: one turn of the loop, with
    its [go] statement, or the return at the end of the loop. *)
Definition closeStepMain (s : closeState) : option closeState :=
  match closeMain s with
  | CloseLoop i =>
      match Loggers (closePoly s) !! i with
      | Some _ =>
          Some (mkCloseState (closePoly s) (closeWorld s)
                  (<[i := Closing]> (closeSlots s)) (CloseLoop (S i)) (closedOrder s))
      | None =>
          Some (mkCloseState (closePoly s) (closeWorld s)
                  (closeSlots s) CloseReturned (closedOrder s))
      end
  | CloseReturned => None
  end.

(** The step of the goroutine spawned for logger [i]: its [Close]. *)
Definition closeStepGo (i : nat) (s : closeState) : option closeState :=
  match closeSlots s !! i, Loggers (closePoly s) !! i with
  | Some Closing, Some lg =>
      Some (mkCloseState (closePoly s) (loggerClose lg (closeWorld s))
              (<[i := Closed]> (closeSlots s)) (closeMain s) (closedOrder s ++ [i]))
  | _, _ => None
  end.

Definition closeStep (t : thread) (s : closeState) : option closeState :=
  match t with
  | Caller => closeStepMain s
  | Go i => closeStepGo i s
  end.

Fixpoint closeRun (sched : list thread) (s : closeState) : option closeState :=
  match sched with
  | [] => Some s
  | t :: rest =>
      match closeStep t s with
      | Some s' => closeRun rest s'
      | None => None
      end
  end.

(** What holds of a [Close] in flight. *)
Record closeInv (p : PolyLogger) (s : closeState) : Prop := mkCloseInv {
  closeInv_poly : closePoly s = p;
  closeInv_length : length (closeSlots s) = length (Loggers p);
  closeInv_closed : forall i, In i (closedOrder s) <-> closeSlots s !! i = Some Closed;
  closeInv_once : NoDup (closedOrder s);
  closeInv_slots : forall i sl,
    closeSlots s !! i = Some sl ->
    match closeMain s with
    | CloseLoop k => if i <? k then sl <> Unreached else sl = Unreached
    | CloseReturned => sl <> Unreached
    end
}.

Lemma closeInv_enter p w : closeInv p (enterClose p w).
Proof.
  constructor; simpl; auto.
  - apply length_replicate.
  - intros i. split; [contradiction|].
    intros H. apply lookup_replicate in H as [H _]. discriminate H.
  - constructor.
  - intros i sl H. apply lookup_replicate in H as [-> _]. reflexivity.
Qed.

Lemma closeStep_inv p t s s' :
  closeInv p s -> closeStep t s = Some s' -> closeInv p s'.
Proof.
  intros Hi. destruct t as [|i]; simpl.
  - unfold closeStepMain. destruct (closeMain s) as [k|] eqn:Hm; [|discriminate].
    destruct (Loggers (closePoly s) !! k) as [lg|] eqn:Hlg.
    + rewrite (closeInv_poly _ _ Hi) in Hlg.
      pose proof (lookup_lt_Some _ _ _ Hlg) as Hlt.
      rewrite <- (closeInv_length _ _ Hi) in Hlt.
      assert (Hk : closeSlots s !! k = Some Unreached).
      { destruct (lookup_lt_is_Some_2 _ _ Hlt) as [sl Hsl].
        pose proof (closeInv_slots _ _ Hi k sl Hsl) as Hold.
        rewrite Hm, Nat.ltb_irrefl in Hold. subst sl. exact Hsl. }
      intros H. injection H as <-. constructor; simpl.
      * apply Hi.
      * rewrite length_insert. apply Hi.
      * intros i. rewrite (closeInv_closed _ _ Hi i).
        destruct (decide (i = k)) as [->|Hne].
        -- rewrite list_lookup_insert_eq by exact Hlt. rewrite Hk.
           split; intros H; discriminate H.
        -- rewrite list_lookup_insert_ne by auto. reflexivity.
      * apply Hi.
      * intros i sl Hsl. destruct (decide (i = k)) as [->|Hne].
        -- rewrite list_lookup_insert_eq in Hsl by exact Hlt. injection Hsl as <-.
           destruct (k <? S k) eqn:E; [discriminate|]. apply Nat.ltb_ge in E. lia.
        -- rewrite list_lookup_insert_ne in Hsl by auto.
           pose proof (closeInv_slots _ _ Hi i sl Hsl) as Hold. rewrite Hm in Hold.
           destruct (i <? k) eqn:E1, (i <? S k) eqn:E2; auto.
           ++ apply Nat.ltb_lt in E1. apply Nat.ltb_ge in E2. lia.
           ++ apply Nat.ltb_ge in E1. apply Nat.ltb_lt in E2. lia.
    + intros H. injection H as <-. constructor; simpl; try apply Hi.
      intros i sl Hsl. pose proof (closeInv_slots _ _ Hi i sl Hsl) as Hold.
      rewrite Hm in Hold. apply lookup_lt_Some in Hsl.
      rewrite (closeInv_length _ _ Hi), <- (closeInv_poly _ _ Hi) in Hsl.
      apply lookup_ge_None in Hlg.
      destruct (i <? k) eqn:E; [exact Hold|]. apply Nat.ltb_ge in E. lia.
  - unfold closeStepGo.
    destruct (closeSlots s !! i) as [[| |]|] eqn:Hs; try discriminate.
    destruct (Loggers (closePoly s) !! i) as [lg|]; [|discriminate].
    pose proof (lookup_lt_Some _ _ _ Hs) as Hlt.
    assert (Hnot : ~ In i (closedOrder s)).
    { rewrite (closeInv_closed _ _ Hi i), Hs. discriminate. }
    intros H. injection H as <-. constructor; simpl.
    + apply Hi.
    + rewrite length_insert. apply Hi.
    + intros j. rewrite in_app_iff, (closeInv_closed _ _ Hi j). simpl.
      destruct (decide (j = i)) as [->|Hne].
      * rewrite list_lookup_insert_eq by exact Hlt. tauto.
      * rewrite list_lookup_insert_ne by auto.
        split; [intros [H|[H|[]]]; [exact H|congruence]|auto].
    + apply NoDup_app. split; [apply Hi|]. split; [|apply NoDup_singleton].
      intros x Hx Hxi. apply list_elem_of_In in Hxi. destruct Hxi as [<-|[]].
      apply Hnot. apply list_elem_of_In. exact Hx.
    + intros j sl Hsl. destruct (decide (j = i)) as [->|Hne].
      * rewrite list_lookup_insert_eq in Hsl by exact Hlt. injection Hsl as <-.
        pose proof (closeInv_slots _ _ Hi i _ Hs) as Hold.
        destruct (closeMain s) as [k|]; [|discriminate].
        destruct (i <? k); [discriminate|discriminate Hold].
      * rewrite list_lookup_insert_ne in Hsl by auto.
        apply (closeInv_slots _ _ Hi j sl Hsl).
Qed.

Lemma closeRun_inv p sched : forall s s',
  closeInv p s -> closeRun sched s = Some s' -> closeInv p s'.
Proof.
  induction sched as [|t rest IH]; intros s s' Hi; simpl.
  - intros H. injection H as <-. exact Hi.
  - destruct (closeStep t s) as [s1|] eqn:Hst; [|discriminate].
    apply IH. eapply closeStep_inv; eauto.
Qed.

Lemma insert_after_replicate {A} (k : nat) (a x y : A) (l : list A) :
  <[k := x]> (replicate k a ++ y :: l) = replicate k a ++ x :: l.
Proof. induction k as [|k IH]; simpl; [reflexivity|]. rewrite IH. reflexivity. Qed.

Lemma replicate_snoc {A} (k : nat) (a : A) (l : list A) :
  replicate k a ++ a :: l = replicate (S k) a ++ l.
Proof. induction k as [|k IH]; simpl; [reflexivity|]. rewrite IH. reflexivity. Qed.

(** The caller alone, from index [k] of the loop to its return. *)
Lemma closeRun_caller_only p w : forall d k,
  k + d = length (Loggers p) ->
  closeRun (replicate (S d) Caller)
    (mkCloseState p w (replicate k Closing ++ replicate d Unreached) (CloseLoop k) [])
  = Some (mkCloseState p w (replicate (length (Loggers p)) Closing) CloseReturned []).
Proof.
  induction d as [|d IH]; intros k Hk.
  - simpl. unfold closeStepMain. simpl.
    rewrite (proj2 (lookup_ge_None (Loggers p) k)) by lia.
    rewrite app_nil_r. replace k with (length (Loggers p)) by lia. reflexivity.
  - change (replicate (S (S d)) Caller) with (Caller :: replicate (S d) Caller).
    cbn [closeRun closeStep]. unfold closeStepMain. cbn [closeMain closePoly].
    destruct (lookup_lt_is_Some_2 (Loggers p) k) as [lg Hlg]; [lia|]. rewrite Hlg.
    cbn [closeWorld closeSlots closedOrder replicate].
    rewrite insert_after_replicate, replicate_snoc.
    apply IH. lia.
Qed.

(** X12: [Close] does not wait for the loggers: the calling goroutine can
    run its loop to the end and return while no logger has been closed yet
    and the world is as it was, every goroutine it spawned still to run. *)
Theorem Close_returns_before_any_close (p : PolyLogger) (w : W) :
  closeRun (replicate (S (length (Loggers p))) Caller) (enterClose p w)
  = Some (mkCloseState p w (replicate (length (Loggers p)) Closing) CloseReturned []).
Proof. apply (closeRun_caller_only p w (length (Loggers p)) 0). reflexivity. Qed.


End WithWorld.

Arguments mkLogger {Err Event W} Log LogNoStack LogJson isRobust.
Arguments Log {Err Event W} l e w.
Arguments LogNoStack {Err Event W} l e w.
Arguments LogJson {Err Event W} l e w.
Arguments isRobust {Err Event W} l.
Arguments mkPolyLogger {Err Event W} Loggers handleLoggerFail waitGroup.
Arguments Loggers {Err Event W} p.
Arguments handleLoggerFail {Err Event W} p.
Arguments waitGroup {Err Event W} p.
Arguments NewPolyLoggerWithHandleLoggerFail {Err Event W} loggers handler.
Arguments NewPolyLogger {Err Event W} println loggers.
Arguments Started {Err}.
Arguments Called {Err} err.
Arguments Handled {Err} err.
Arguments Exited {Err} err.
Arguments NotReached {Err}.
Arguments Skipped {Err}.
Arguments Spawned {Err} ph.
Arguments InLoop {Err} i.
Arguments Waiting {Err}.
Arguments Returned {Err} r.
Arguments ObsCall {Err} i m r.
Arguments ObsHandle {Err} i e.
Arguments callee {Err Event W} s.
Arguments errToLog {Err Event W} s.
Arguments poly {Err Event W} s.
Arguments world {Err Event W} s.
Arguments slots {Err Event W} s.
Arguments main {Err Event W} s.
Arguments trace {Err Event W} s.
Arguments enter {Err Event W} m ev p w.
Arguments step {Err Event W} t s.
Arguments run {Err Event W} sched s.
Arguments proj {Err} i tr.
Arguments handlerCalls {Err} tr.
Arguments reported {Err W} h i r.
Arguments replays {Err Event W} p ev tr w w'.

(** ** A concrete composite, for running it *)

(** The world is the list of lines that reached some destination. *)
Definition exWorld : Type := list string.

(** A robust logger that records the event under its name, one that is not
    robust, and a robust one whose disk is full. *)
Definition exRecorder (name : string) (robust : bool) : Logger string string exWorld :=
  mkLogger
    (fun ev w => (w ++ [name ++ " Log " ++ ev]%string, None))
    (fun ev w => (w ++ [name ++ " LogNoStack " ++ ev]%string, None))
    (fun ev w => (w ++ [name ++ " LogJson " ++ ev]%string, None))
    robust.

Definition exFullDisk : Logger string string exWorld :=
  mkLogger
    (fun ev w => (w, Some "disk full"%string))
    (fun ev w => (w, Some "disk full"%string))
    (fun ev w => (w, Some "disk full"%string))
    true.

Definition exPrintln (e : string) (w : exWorld) : exWorld := w ++ [("stderr " ++ e)%string].

Definition exLoggers : list (Logger string string exWorld) :=
  [exRecorder "a" true; exFullDisk; exRecorder "c" false].

Definition exPoly : PolyLogger string string exWorld := NewPolyLogger exPrintln exLoggers.

(** The same loggers with a nil handler. *)
Definition exPolyNoHandler : PolyLogger string string exWorld :=
  NewPolyLoggerWithHandleLoggerFail exLoggers None.

(** A schedule in which the goroutines overtake each other. *)
Definition exSchedLog : list thread :=
  [Caller; Caller; Go 1; Caller; Go 0; Go 2; Go 1; Caller; Go 2; Go 1; Go 0; Go 2; Go 0; Caller].

Definition exSchedRobust : list thread :=
  [Caller; Caller; Go 1; Caller; Go 0; Go 1; Caller; Go 1; Go 0; Go 0; Caller].

Definition exAfterLog : state string string exWorld :=
  Eval vm_compute in
    match run exSchedLog (enter MLog "boom"%string exPoly []) with
    | Some s => s
    | None => enter MLog "boom"%string exPoly []
    end.

Definition exAfterLogJson : state string string exWorld :=
  Eval vm_compute in
    match run exSchedRobust (enter MLogJson "boom"%string exPoly []) with
    | Some s => s
    | None => enter MLogJson "boom"%string exPoly []
    end.

Example Log_reaches_all :
  main exAfterLog = Returned None
  /\ world exAfterLog = ["a Log boom"; "c Log boom"; "stderr disk full"]%string
  /\ trace exAfterLog
     = [ObsCall 1 MLog (Some "disk full"%string); ObsCall 0 MLog None;
        ObsCall 2 MLog None; ObsHandle 1 "disk full"%string].
Proof. repeat split; reflexivity. Qed.

Example LogJson_skips_plain_logger :
  main exAfterLogJson = Returned None
  /\ world exAfterLogJson = ["a LogJson boom"; "stderr disk full"]%string
  /\ slots exAfterLogJson
     = [Spawned (Exited None); Spawned (Exited (Some "disk full"%string)); Skipped].
Proof. repeat split; reflexivity. Qed.

Lemma composite_returns_nil_witness :
  (forall r, main exAfterLog = Returned r -> r = None)
  /\ length exSchedLog <= 2 + 4 * length (Loggers exPoly)
  /\ ((forall r, main exAfterLog <> Returned r) ->
      exists t s', step t exAfterLog = Some s')
  /\ exists rest s', run rest exAfterLog = Some s' /\ main s' = Returned None.
Proof.
  apply (composite_returns_nil string string exWorld MLog "boom"%string exPoly []
           exSchedLog exAfterLog).
  - reflexivity.
  - reflexivity.
Defined.

Lemma robust_only_dispatch_witness :
  (replays exPoly "boom"%string (trace exAfterLogJson) [] (world exAfterLogJson)
   /\ proj 2 (trace exAfterLogJson) = []
   /\ (slots exAfterLogJson !! 2 = Some NotReached
       \/ slots exAfterLogJson !! 2 = Some Skipped))
  /\ (exists ri tr1 tr2 w1 w2,
        proj 0 (trace exAfterLogJson)
        = ObsCall 0 MLogJson ri :: reported (handleLoggerFail exPoly) 0 ri
        /\ trace exAfterLogJson = tr1 ++ ObsCall 0 MLogJson ri :: tr2
        /\ replays exPoly "boom"%string tr1 [] w1
        /\ LogJson (exRecorder "a" true) "boom"%string w1 = (w2, ri)
        /\ replays exPoly "boom"%string tr2 w2 (world exAfterLogJson))
  /\ (exists ri tr1 tr2 w1 w2,
        proj 1 (trace exAfterLogJson)
        = ObsCall 1 MLogJson ri :: reported (handleLoggerFail exPoly) 1 ri
        /\ trace exAfterLogJson = tr1 ++ ObsCall 1 MLogJson ri :: tr2
        /\ replays exPoly "boom"%string tr1 [] w1
        /\ LogJson exFullDisk "boom"%string w1 = (w2, ri)
        /\ replays exPoly "boom"%string tr2 w2 (world exAfterLogJson)).
Proof.
  split; [|split].
  - destruct (robust_only_dispatch string string exWorld MLogJson "boom"%string exPoly []
                exSchedRobust exAfterLogJson 2 (exRecorder "c" false))
      as (Hrep & Hno & _); [discriminate|reflexivity|reflexivity|reflexivity|].
    split; [exact Hrep|]. apply Hno. reflexivity.
  - destruct (robust_only_dispatch string string exWorld MLogJson "boom"%string exPoly []
                exSchedRobust exAfterLogJson 0 (exRecorder "a" true))
      as (_ & _ & Hyes); [discriminate|reflexivity|reflexivity|reflexivity|].
    apply (Hyes eq_refl None). reflexivity.
  - destruct (robust_only_dispatch string string exWorld MLogJson "boom"%string exPoly []
                exSchedRobust exAfterLogJson 1 exFullDisk)
      as (_ & _ & Hyes); [discriminate|reflexivity|reflexivity|reflexivity|].
    apply (Hyes eq_refl None). reflexivity.
Defined.



(** ** Running more of the composite *)

Arguments mkCloseState {Err Event W} closePoly closeWorld closeSlots closeMain closedOrder.
Arguments closePoly {Err Event W} _.
Arguments closeWorld {Err Event W} _.
Arguments closeSlots {Err Event W} _.
Arguments closeMain {Err Event W} _.
Arguments closedOrder {Err Event W} _.
Arguments enterClose {Err Event W} p w.
Arguments closeStep {Err Event W} loggerClose t s.
Arguments closeRun {Err Event W} loggerClose sched s.

(** Two full disks among three loggers. *)
Definition exPolyTwoFull : PolyLogger string string exWorld :=
  NewPolyLogger exPrintln [exFullDisk; exRecorder "b" false; exFullDisk].

Definition exAfterTwoFull : state string string exWorld :=
  Eval vm_compute in
    match run exSchedLog (enter MLog "boom"%string exPolyTwoFull []) with
    | Some s => s
    | None => enter MLog "boom"%string exPolyTwoFull []
    end.

Definition exAfterNoHandler : state string string exWorld :=
  Eval vm_compute in
    match run exSchedLog (enter MLog "boom"%string exPolyNoHandler []) with
    | Some s => s
    | None => enter MLog "boom"%string exPolyNoHandler []
    end.

Example two_failures_two_reports :
  main exAfterTwoFull = Returned None
  /\ world exAfterTwoFull = ["b Log boom"; "stderr disk full"; "stderr disk full"]%string
  /\ handlerCalls (trace exAfterTwoFull)
     = [ObsHandle 2 "disk full"%string; ObsHandle 0 "disk full"%string].
Proof. repeat split; reflexivity. Qed.

Lemma waitGroup_back_to_zero_witness :
  (0 <= waitGroup (poly exAfterLog) <= Z.of_nat (length (Loggers exPoly)))%Z
  /\ Loggers (poly exAfterLog) = Loggers exPoly
  /\ handleLoggerFail (poly exAfterLog) = handleLoggerFail exPoly
  /\ (forall r, main exAfterLog = Returned r -> poly exAfterLog = exPoly).
Proof.
  apply (waitGroup_back_to_zero string string exWorld MLog "boom"%string exPoly []
           exSchedLog exAfterLog).
  - reflexivity.
  - reflexivity.
Defined.


Lemma nil_handler_never_runs_witness :
  handlerCalls (trace exAfterNoHandler) = [].
Proof.
  apply (nil_handler_never_runs string string exWorld MLog "boom"%string exPolyNoHandler []
           exSchedLog exAfterNoHandler).
  - reflexivity.
  - reflexivity.
  - reflexivity.
Defined.

Lemma Log_reaches_every_logger_witness :
  (forall i lg, Loggers exPolyTwoFull !! i = Some lg ->
     exists ri tr1 tr2 w1 w2,
       proj i (trace exAfterTwoFull)
       = ObsCall i MLog ri :: reported (handleLoggerFail exPolyTwoFull) i ri
       /\ slots exAfterTwoFull !! i = Some (Spawned (Exited ri))
       /\ trace exAfterTwoFull = tr1 ++ ObsCall i MLog ri :: tr2
       /\ replays exPolyTwoFull "boom"%string tr1 [] w1
       /\ Log lg "boom"%string w1 = (w2, ri)
       /\ replays exPolyTwoFull "boom"%string tr2 w2 (world exAfterTwoFull))
  /\ (forall i, length (Loggers exPolyTwoFull) <= i -> proj i (trace exAfterTwoFull) = [])
  /\ replays exPolyTwoFull "boom"%string (trace exAfterTwoFull) [] (world exAfterTwoFull).
Proof.
  apply (Log_reaches_every_logger string string exWorld "boom"%string exPolyTwoFull []
           exSchedLog exAfterTwoFull None).
  - reflexivity.
  - reflexivity.
  - reflexivity.
Defined.

(** A [Close] that leaves a line in the world. *)
Definition exClose (lg : Logger string string exWorld) (w : exWorld) : exWorld :=
  w ++ [if isRobust lg then "robust closed" else "plain closed"]%string.

(** [Close] returns after the first goroutine has run; the others run
    later. *)
Definition exSchedClose : list thread :=
  [Caller; Go 0; Caller; Caller; Caller; Go 2; Go 1].

Definition exAfterClose : closeState string string exWorld :=
  Eval vm_compute in
    match closeRun exClose exSchedClose (enterClose exPoly []) with
    | Some s => s
    | None => enterClose exPoly []
    end.

Example Close_in_any_order :
  closedOrder exAfterClose = [0; 2; 1]
  /\ closeWorld exAfterClose = ["robust closed"; "plain closed"; "robust closed"]%string.
Proof. split; reflexivity. Qed.


End Poly.
